(** * Snooty: a domain-specific language for scraping HTML

    A shallow embedding of the prototype in [snooty.ipynb]: the pyPEG2
    grammar of cell 2, the interpreter [run] of cell 3 and the data of
    cells 4 to 6, together with the parts of the libraries the prototype
    calls ([pypeg2.parse], [lxml.etree], [locale.setlocale]).

    Scope of the model.  Script and document texts are strings of ASCII
    characters.  Python exceptions are values of [exn]; a computation that
    may raise returns a [result].  The state of the process that a call
    of [run] can change (the locale, the standard output) is passed
    through [run] as a [World].  The XML reader of the host and the set
    of locales installed on it are parameters of the interpreter. *)

From Stdlib Require Import Ascii String.
From stdpp Require Import base option list strings gmap.

Local Open Scope string_scope.
Set Warnings "-register-all".

(** ** Exceptions and results *)

Inductive exn : Type :=
  | SyntaxError                 (* pypeg2: the text does not match the grammar *)
  | Exhausted                   (* a repetition that consumes no input: never ends *)
  | XMLSyntaxError              (* lxml.etree.fromstring *)
  | XPathEvalError              (* lxml: the expression is not an XPath *)
  | LocaleError                 (* locale.Error: unsupported locale setting *)
  | KeyError (key : string)     (* d[key] on a dict without that key *)
  | TypeError                   (* l[key] = v on a list, with a str key *)
  | IndexError.                 (* l[-1] on an empty list *)

Inductive result (A : Type) : Type :=
  | Ok (a : A)
  | Raise (e : exn).
Arguments Ok {A} a.
Arguments Raise {A} e.

#[global] Instance exn_eq_dec : EqDecision exn.
Proof. solve_decision. Defined.

#[global] Instance result_ret : MRet result := @Ok.
#[global] Instance result_bind : MBind result := fun A B f m =>
  match m with
  | Ok a => f a
  | Raise e => Raise e
  end.

(** ** Text: the regular expressions of pypeg2 *)

Module Text.

Definition code (c : ascii) : nat := nat_of_ascii c.

(** [\s] on ASCII text: the characters for which [str.isspace] holds. *)
Definition is_space (c : ascii) : bool :=
  let n := code c in
  (Nat.leb 9 n && Nat.leb n 13) || (Nat.leb 28 n && Nat.leb n 32).

Definition is_digit (c : ascii) : bool :=
  let n := code c in Nat.leb 48 n && Nat.leb n 57.

Definition is_alpha (c : ascii) : bool :=
  let n := code c in
  (Nat.leb 65 n && Nat.leb n 90) || (Nat.leb 97 n && Nat.leb n 122).

(** [\w] on ASCII text. *)
Definition is_word_char (c : ascii) : bool :=
  is_alpha c || is_digit c || Nat.eqb (code c) 95.

(** [.] without DOTALL: anything but a line feed. *)
Definition is_dot (c : ascii) : bool := negb (Nat.eqb (code c) 10).

(** The longest prefix whose characters satisfy [f], and the rest. *)
Fixpoint span (f : ascii -> bool) (s : string) : string * string :=
  match s with
  | EmptyString => (EmptyString, EmptyString)
  | String c s' =>
      if f c then let '(m, r) := span f s' in (String c m, r)
      else (EmptyString, s)
  end.

Fixpoint forallb (f : ascii -> bool) (s : string) : bool :=
  match s with
  | EmptyString => true
  | String c s' => f c && forallb f s'
  end.

Fixpoint filter (f : ascii -> bool) (s : string) : string :=
  match s with
  | EmptyString => EmptyString
  | String c s' => if f c then String c (filter f s') else filter f s'
  end.

(** [text.startswith(p)], returning [text[len(p):]]. *)
Fixpoint strip_prefix (p text : string) : option string :=
  match p, text with
  | EmptyString, _ => Some text
  | String a p', String b t' =>
      if Ascii.eqb a b then strip_prefix p' t' else None
  | String _ _, EmptyString => None
  end.

(** [str.join] *)
Fixpoint join (sep : string) (l : list string) : string :=
  match l with
  | [] => EmptyString
  | [x] => x
  | x :: l' => x ++ sep ++ join sep l'
  end.

Definition empty (s : string) : bool :=
  match s with EmptyString => true | _ => false end.

(** The characters of a text that are not whitespace. *)
Definition ink (s : string) : string := filter (fun c => negb (is_space c)) s.

End Text.

(** ** pypeg2: the grammar elements the script grammar uses

    A grammar element is applied to the text that is left and returns the
    text it leaves together with what it built; an element that does not
    match returns the text it was given and a [SyntaxError]
    ([Parser._parse]).  After every terminal the parser skips whitespace,
    the regular expression [(?m)\s+], which includes line breaks. *)

Module Peg.

Definition parser (A : Type) : Type := string -> string * result A.

(** [Parser._skip] with [whitespace = (?m)\s+] and no comment element. *)
Definition skip (text : string) : string := snd (Text.span Text.is_space text).

(** A [str] instance: the text starts with it. *)
Definition lit (s : string) : parser unit := fun text =>
  match Text.strip_prefix s text with
  | Some t => (skip t, Ok tt)
  | None => (text, Raise SyntaxError)
  end.

(** [word = re.compile(r"\w+")]; also the grammar of the classes [str]
    and [Symbol]. *)
Definition word : parser string := fun text =>
  match Text.span Text.is_word_char text with
  | (EmptyString, _) => (text, Raise SyntaxError)
  | (w, t) => (skip t, Ok w)
  end.

(** [restline = re.compile(r".*")] *)
Definition restline : parser string := fun text =>
  let '(l, t) := Text.span Text.is_dot text in (skip t, Ok l).

(** A callable ([endl], [blank]) only matters when composing text. *)
Definition endl : parser unit := fun text => (text, Ok tt).
Definition blank : parser unit := fun text => (text, Ok tt).

Definition pure {A} (a : A) : parser A := fun text => (text, Ok a).

(** A tuple: its elements in sequence; if one fails the tuple fails and
    gives back the text it started from. *)
Definition seq {A B} (p : parser A) (k : A -> parser B) : parser B :=
  fun text =>
    match p text with
    | (t, Ok a) =>
        match k a t with
        | (t', Ok b) => (t', Ok b)
        | (_, Raise e) => (text, Raise e)
        end
    | (_, Raise e) => (text, Raise e)
    end.

#[global] Instance parser_ret : MRet parser := @pure.
#[global] Instance parser_bind : MBind parser := fun A B k p => seq p k.

(** [attr(name, thing)]: what [thing] parses becomes the attribute; the
    constructor that ends each grammar below sets it. *)
Definition attr {A} (p : parser A) : parser A := p.

(** A list: ordered choice, the first alternative that matches. *)
Fixpoint choice {A} (ps : list (parser A)) : parser A := fun text =>
  match ps with
  | [] => (text, Raise SyntaxError)
  | p :: ps' =>
      match p text with
      | (t, Ok a) => (t, Ok a)
      | (_, Raise _) => choice ps' text
      end
  end.

(** Cardinality [-1] ([maybe_some]): apply the element until it fails.
    [fuel] bounds the number of rounds; a round that matches leaves
    the loop running. *)
Fixpoint maybe_some_loop {A} (fuel : nat) (p : parser A) (text : string)
    : string * result (list A) :=
  match fuel with
  | O => (text, Raise Exhausted)
  | S fuel' =>
      match p text with
      | (t, Ok a) =>
          match maybe_some_loop fuel' p t with
          | (t', Ok l) => (t', Ok (a :: l))
          | (_, Raise e) => (text, Raise e)
          end
      | (_, Raise _) => (text, Ok [])
      end
  end.

Definition maybe_some {A} (p : parser A) : parser (list A) := fun text =>
  maybe_some_loop (S (String.length text)) p text.

(** [csl(thing, separator)]: [thing, maybe_some(separator, blank, thing)] *)
Definition csl {A} (thing : parser A) (separator : string) : parser (list A) :=
  x ← thing;
  xs ← maybe_some (lit separator ;; blank ;; thing);
  mret (x :: xs).

(** [pypeg2.parse(text, thing)]: skip leading whitespace, apply the
    grammar, and raise unless the whole text was consumed. *)
Definition parse {A} (text : string) (thing : parser A) : result A :=
  match thing (skip text) with
  | (t, Ok r) => if Text.empty t then Ok r else Raise SyntaxError
  | (_, Raise e) => Raise e
  end.

End Peg.

(** ** The grammar of cell 2 *)

Record Selector : Type := mkSelector { parent : string; child : string }.

Inductive Statement : Type :=
  | Comment (text : string)
  | LocaleStatement (locale : string)
  | SelectorStatement (name : string) (selector : Selector)
  | ExportStatement (name : list string) (selector : string).

#[global] Instance Selector_eq_dec : EqDecision Selector.
Proof. solve_decision. Defined.
#[global] Instance Statement_eq_dec : EqDecision Statement.
Proof. solve_decision. Defined.

Module Grammar.
Import Peg.

(** [grammar = '#', attr('text', restline), endl] *)
Definition Comment_grammar : parser Statement :=
  lit "#" ;; text ← attr restline; endl ;; mret (Comment text).

(** [grammar = 'locale', attr('locale', word)] *)
Definition LocaleStatement_grammar : parser Statement :=
  lit "locale" ;; locale ← attr word; mret (LocaleStatement locale).

(** [grammar = attr('parent', word), '->', attr('child', word)] *)
Definition Selector_grammar : parser Selector :=
  parent ← attr word; lit "->" ;; child ← attr word;
  mret (mkSelector parent child).

(** [grammar = 'selector', name(), '=', attr('selector', Selector)] *)
Definition SelectorStatement_grammar : parser Statement :=
  lit "selector" ;; name ← attr word; lit "=" ;;
  selector ← attr Selector_grammar; mret (SelectorStatement name selector).

(** [grammar = csl(str, separator='.')] *)
Definition DottedName_grammar : parser (list string) := csl word ".".

(** [grammar = 'export', attr('name', DottedName), '=', attr('selector', str)] *)
Definition ExportStatement_grammar : parser Statement :=
  lit "export" ;; name ← attr DottedName_grammar; lit "=" ;;
  selector ← attr word; mret (ExportStatement name selector).

(** The four alternatives of [Script], in the order of the source. *)
Definition statement : parser Statement :=
  choice [ Comment_grammar; ExportStatement_grammar;
           LocaleStatement_grammar; SelectorStatement_grammar ].

(** [grammar = maybe_some([Comment, ExportStatement, LocaleStatement,
    SelectorStatement])] *)
Definition Script : parser (list Statement) := maybe_some statement.

End Grammar.

Definition LF : string := String (ascii_of_nat 10) EmptyString.

Definition three_line_script : string :=
  "locale en_US" ++ LF ++
  "selector paragraph = p -> a" ++ LF ++
  "export foo.paragraph = paragraph" ++ LF.

(** ** lxml.etree

    The element tree of lxml: every element has a tag, attributes in
    document order, the text before its first child, its children and
    the text that follows its end tag (its tail).  [None] and the empty
    string are not told apart for [text] and [tail]: they serialise
    alike. *)

Inductive Element : Type :=
  | mkElement (tag : string) (attrib : list (string * string)) (text : string)
              (children : list Element) (tail : string).

(** [bytes]: what [etree.tostring] returns.  A [str] is never equal to a
    [bytes] object. *)
Inductive bytes : Type := Bytes (data : string).

#[global] Instance bytes_eq_dec : EqDecision bytes.
Proof. solve_decision. Defined.

Module Lxml.

Definition tag (e : Element) : string := let 'mkElement t _ _ _ _ := e in t.
Definition attrib (e : Element) := let 'mkElement _ a _ _ _ := e in a.
Definition text (e : Element) : string := let 'mkElement _ _ x _ _ := e in x.
Definition children (e : Element) := let 'mkElement _ _ _ c _ := e in c.
Definition tail (e : Element) : string := let 'mkElement _ _ _ _ x := e in x.

(** *** Serialisation: [etree.tostring(e)], with its defaults
    ([method="xml"], [with_tail=True], ASCII output as [bytes]) *)

Fixpoint escape (table : ascii -> option string) (s : string) : string :=
  match s with
  | EmptyString => EmptyString
  | String c s' =>
      match table c with
      | Some r => r ++ escape table s'
      | None => String c (escape table s')
      end
  end.

Definition text_entity (c : ascii) : option string :=
  match Text.code c with
  | 38 => Some "&amp;"
  | 60 => Some "&lt;"
  | 62 => Some "&gt;"
  | 13 => Some "&#13;"
  | _ => None
  end.

Definition attr_entity (c : ascii) : option string :=
  match Text.code c with
  | 38 => Some "&amp;"
  | 60 => Some "&lt;"
  | 62 => Some "&gt;"
  | 34 => Some "&quot;"
  | 9 => Some "&#9;"
  | 10 => Some "&#10;"
  | 13 => Some "&#13;"
  | _ => None
  end.

Definition DQUOTE : string := String (ascii_of_nat 34) EmptyString.

Definition serialize_attr (a : string * string) : string :=
  " " ++ fst a ++ "=" ++ DQUOTE ++ escape attr_entity (snd a) ++ DQUOTE.

Definition concat_strings (l : list string) : string :=
  fold_right String.append EmptyString l.

Fixpoint serialize (e : Element) : string :=
  let 'mkElement t a x c tl := e in
  let attrs := concat_strings (map serialize_attr a) in
  (match x, c with
   | EmptyString, [] => "<" ++ t ++ attrs ++ "/>"
   | _, _ => "<" ++ t ++ attrs ++ ">" ++ escape text_entity x
             ++ concat_strings (map serialize c) ++ "</" ++ t ++ ">"
   end) ++ escape text_entity tl.

Definition tostring (e : Element) : bytes := Bytes (serialize e).

(** *** XPath: [doc.xpath('//{}/{}'.format(parent, child))]

    [//parent/child] abbreviates
    [/descendant-or-self::node()/child::parent/child::child]: the
    elements named [child] whose parent is an element named [parent],
    as a node set in document order.  The two names come from the
    script as words ([\w+]); a step that does not start like a name
    (a digit first, or nothing) is not an XPath expression. *)

Definition name_start (c : ascii) : bool :=
  Text.is_alpha c || Nat.eqb (Text.code c) 95.

Definition name_char (c : ascii) : bool :=
  Text.is_word_char c || Nat.eqb (Text.code c) 45 || Nat.eqb (Text.code c) 46.

Definition is_name (s : string) : bool :=
  match s with
  | EmptyString => false
  | String c s' => name_start c && Text.forallb name_char s'
  end.

(** The elements below [e] selected by the two steps, in document order. *)
Fixpoint select (parent child : string) (e : Element) : list Element :=
  flat_map
    (fun c =>
       app (if String.eqb (tag e) parent && String.eqb (tag c) child
            then [c] else [])
           (select parent child c))
    (children e).

(** [doc] is the root element; its parent is the document node, which
    is no element, so the root itself is never selected. *)
Definition xpath (doc : Element) (parent child : string)
    : result (list Element) :=
  if is_name parent && is_name child
  then Ok (select parent child doc)
  else Raise XPathEvalError.

(** *** [etree.fromstring] on plain documents

    The reader below covers the documents the notebook uses: an
    optional [<!DOCTYPE ...>] without internal subset, then one root
    element; elements with attributes in single or double quotes,
    character data, and empty-element tags.  Entity and character
    references, comments, processing instructions, CDATA sections,
    namespace prefixes and declarations, control characters, the end mark of a CDATA section
    in character data and text that is not ASCII are outside it and
    are refused.  The interpreter takes the reader of the host as a
    parameter; this one instantiates it for the examples. *)

Inductive token : Type :=
  | TText (s : string)
  | TOpen (t : string) (a : list (string * string))
  | TEmpty (t : string) (a : list (string * string))
  | TClose (t : string)
  | TDoctype.

Definition is_xml_space (c : ascii) : bool :=
  let n := Text.code c in Nat.eqb n 32 || Nat.eqb n 9 || Nat.eqb n 10.

Definition skip_space (s : string) : string := snd (Text.span is_xml_space s).

Definition is_char (n : nat) (c : ascii) : bool := Nat.eqb (Text.code c) n.

(** Character data the reader takes: ASCII, no reference, no markup, no
    control character but tab and line feed. *)
Definition plain (s : string) : bool :=
  Text.forallb
    (fun c =>
       let n := Text.code c in
       negb (Nat.eqb n 38 || Nat.eqb n 60)
       && (Nat.leb 32 n || Nat.eqb n 9 || Nat.eqb n 10)
       && Nat.ltb n 128) s.

(** [needle in s] *)
Fixpoint occurs_in (needle s : string) : bool :=
  match Text.strip_prefix needle s with
  | Some _ => true
  | None =>
      match s with
      | EmptyString => false
      | String _ s' => occurs_in needle s'
      end
  end.

(** Attribute-value normalisation: white space becomes a space. *)
Fixpoint normalize (s : string) : string :=
  match s with
  | EmptyString => EmptyString
  | String c s' =>
      String (if is_xml_space c then ascii_of_nat 32 else c) (normalize s')
  end.

Definition has_key (k : string) (a : list (string * string)) : bool :=
  existsb (fun kv => String.eqb (fst kv) k) a.

Fixpoint read_attrs (fuel : nat) (s : string)
    : result (list (string * string) * string) :=
  match fuel with
  | O => Raise XMLSyntaxError
  | S fuel' =>
      let s1 := skip_space s in
      match s1 with
      | EmptyString => Ok ([], s1)
      | String c _ =>
          if negb (name_start c) then Ok ([], s1) else
          if Text.empty (fst (Text.span is_xml_space s)) then Raise XMLSyntaxError else
          let '(n, s2) := Text.span name_char s1 in
          match Text.strip_prefix "=" (skip_space s2) with
          | None => Raise XMLSyntaxError
          | Some s3 =>
              match skip_space s3 with
              | EmptyString => Raise XMLSyntaxError
              | String q s5 =>
                  if negb (is_char 34 q || is_char 39 q) then Raise XMLSyntaxError else
                  let '(v, s6) := Text.span (fun c => negb (Ascii.eqb c q)) s5 in
                  match s6 with
                  | EmptyString => Raise XMLSyntaxError
                  | String _ s7 =>
                      if negb (plain v) then Raise XMLSyntaxError else
                      '(a, rest) ← read_attrs fuel' s7;
                      if has_key n a || String.eqb n "xmlns"
                      then Raise XMLSyntaxError
                      else Ok ((n, normalize v) :: a, rest)
                  end
              end
          end
      end
  end.

Fixpoint tokens (fuel : nat) (s : string) : result (list token) :=
  match fuel with
  | O => Raise XMLSyntaxError
  | S fuel' =>
      match s with
      | EmptyString => Ok []
      | String c rest =>
          if negb (is_char 60 c) then
            let '(txt, r) := Text.span (fun c => negb (is_char 60 c)) s in
            if plain txt && negb (occurs_in "]]>" txt)
            then l ← tokens fuel' r; Ok (TText txt :: l)
            else Raise XMLSyntaxError
          else
            match Text.strip_prefix "/" rest, Text.strip_prefix "!DOCTYPE" rest with
            | Some r1, _ =>
                let '(n, r2) := Text.span name_char r1 in
                match is_name n, Text.strip_prefix ">" (skip_space r2) with
                | true, Some r3 => l ← tokens fuel' r3; Ok (TClose n :: l)
                | _, _ => Raise XMLSyntaxError
                end
            | None, Some r1 =>
                match snd (Text.span (fun c => negb (is_char 62 c)) r1) with
                | String _ r3 => l ← tokens fuel' r3; Ok (TDoctype :: l)
                | EmptyString => Raise XMLSyntaxError
                end
            | None, None =>
                let '(n, r1) := Text.span name_char rest in
                if negb (is_name n) then Raise XMLSyntaxError else
                '(a, r2) ← read_attrs fuel' r1;
                match Text.strip_prefix "/>" r2, Text.strip_prefix ">" r2 with
                | Some r3, _ => l ← tokens fuel' r3; Ok (TEmpty n a :: l)
                | None, Some r3 => l ← tokens fuel' r3; Ok (TOpen n a :: l)
                | None, None => Raise XMLSyntaxError
                end
            end
      end
  end.

(** An element whose end tag has not been read yet; its children are
    kept last first. *)
Record frame : Type := mkFrame {
  f_tag : string;
  f_attrib : list (string * string);
  f_text : string;
  f_children : list Element
}.

Definition add_text (s : string) (f : frame) : frame :=
  match f_children f with
  | [] => mkFrame (f_tag f) (f_attrib f) (f_text f ++ s) []
  | mkElement t a x c tl :: cs =>
      mkFrame (f_tag f) (f_attrib f) (f_text f) (mkElement t a x c (tl ++ s) :: cs)
  end.

Definition add_child (e : Element) (f : frame) : frame :=
  mkFrame (f_tag f) (f_attrib f) (f_text f) (e :: f_children f).

Definition close (f : frame) : Element :=
  mkElement (f_tag f) (f_attrib f) (f_text f) (rev (f_children f)) EmptyString.

(** [prolog]: no DOCTYPE and no root element seen yet. *)
Fixpoint build (toks : list token) (stack : list frame) (prolog : bool)
    (root : option Element) : result Element :=
  match toks with
  | [] =>
      match stack, root with
      | [], Some r => Ok r
      | _, _ => Raise XMLSyntaxError
      end
  | tok :: toks' =>
      let place e :=
        match stack, root with
        | f :: st, _ => build toks' (add_child e f :: st) false root
        | [], None => build toks' [] false (Some e)
        | [], Some _ => Raise XMLSyntaxError
        end in
      match tok with
      | TDoctype =>
          if prolog then build toks' stack false root else Raise XMLSyntaxError
      | TText s =>
          match stack with
          | f :: st => build toks' (add_text s f :: st) prolog root
          | [] =>
              if Text.forallb is_xml_space s then build toks' stack prolog root
              else Raise XMLSyntaxError
          end
      | TOpen t a =>
          match stack, root with
          | [], Some _ => Raise XMLSyntaxError
          | _, _ => build toks' (mkFrame t a EmptyString [] :: stack) false root
          end
      | TEmpty t a => place (mkElement t a EmptyString [] EmptyString)
      | TClose t =>
          match stack with
          | f :: st =>
              if String.eqb (f_tag f) t then
                match st, root with
                | g :: st', _ => build toks' (add_child (close f) g :: st') false root
                | [], None => build toks' [] false (Some (close f))
                | [], Some _ => Raise XMLSyntaxError
                end
              else Raise XMLSyntaxError
          | [] => Raise XMLSyntaxError
          end
      end
  end.

Definition fromstring (s : string) : result Element :=
  toks ← tokens (S (String.length s)) s;
  build toks [] true None.

End Lxml.

Definition paragraph_document : string :=
  "<p>A paragraph. It contains <a href='/foo'>a link.</a></p>".

Definition paragraph_tree : Element :=
  mkElement "p" [] "A paragraph. It contains "
    [ mkElement "a" [("href", "/foo")] "a link." [] EmptyString ] EmptyString.

(** ** Python values of the interpreter *)

(** A [dict] with [str] keys: entries in insertion order, every key once. *)
Module PyDict.
Section Dict.
Context {V : Type}.

Fixpoint get (d : list (string * V)) (k : string) : option V :=
  match d with
  | [] => None
  | (k', v) :: d' => if String.eqb k' k then Some v else get d' k
  end.

(** [k in d] *)
Definition contains (d : list (string * V)) (k : string) : bool :=
  match get d k with Some _ => true | None => false end.

(** [d[k] = v]: a present key keeps its place, a new one goes last. *)
Fixpoint set (d : list (string * V)) (k : string) (v : V) : list (string * V) :=
  match d with
  | [] => [(k, v)]
  | (k', v') :: d' =>
      if String.eqb k' k then (k', v) :: d' else (k', v') :: set d' k v
  end.
End Dict.
End PyDict.

(** What [export] holds: under each key either a nested [dict] or the
    [list] of serialised nodes an export statement stored. *)
Inductive value : Type :=
  | Leaf (items : list bytes)
  | Dict (entries : list (string * value)).

Inductive pyobj : Type :=
  | PyNone
  | PyValue (v : value).

(** The state of the process that outlives a call of [run]: the locale
    set with [locale.setlocale] and what was printed. *)
Record World : Type := mkWorld {
  LC_ALL : string;
  stdout : list value
}.

(** [print(v)]: the value is appended to what was printed.  Writing the
    value out is taken to succeed, as it does for a tree nested less
    deeply than the recursion limit of the interpreter. *)
Definition print (v : value) (w : World) : World :=
  mkWorld (LC_ALL w) (stdout w ++ [v]).

(** [l[:-1]] and [l[-1]] *)
Definition but_last {A} (l : list A) : list A := removelast l.
Definition last_item {A} (l : list A) : result A :=
  match last l with
  | Some x => Ok x
  | None => Raise IndexError
  end.

(** ** The interpreter of cell 3 *)

Section Interpreter.

(** The host: [etree.fromstring], and the locales [locale.setlocale]
    accepts on this machine. *)
Context (fromstring : string -> result Element).
Context (locale_available : string -> bool).

(** [locale.setlocale(locale.LC_ALL, name)] *)
Definition setlocale (name : string) (w : World) : World * result unit :=
  if locale_available name
  then (mkWorld name (stdout w), Ok tt)
  else (w, Raise LocaleError).

(** The loop
    [for name in stmt.name[:-1]:
         if name not in exp: exp[name] = dict()
         exp = exp[name]]
    followed by [body], which works on the object [exp] names in the
    end.  Every [dict] under [export] is reachable through one key
    only, so updating the object [exp] names is updating the entry it
    was read from.  On a [list] of [bytes], [name not in exp] holds for
    every [str], and the assignment [exp[name] = dict()] raises. *)
Fixpoint descend (exp : value) (names : list string)
    (body : value -> result value) : result value :=
  match names with
  | [] => body exp
  | name :: names' =>
      match exp with
      | Leaf _ => Raise TypeError
      | Dict d =>
          let d1 := if PyDict.contains d name then d
                    else PyDict.set d name (Dict []) in
          match PyDict.get d1 name with
          | Some sub =>
              sub' ← descend sub names' body;
              Ok (Dict (PyDict.set d1 name sub'))
          | None => Raise (KeyError name)
          end
      end
  end.

(** [exp[key] = items] *)
Definition store (exp : value) (key : string) (items : list bytes)
    : result value :=
  match exp with
  | Dict d => Ok (Dict (PyDict.set d key (Leaf items)))
  | Leaf _ => Raise TypeError
  end.

(** The branch for an [ExportStatement]. *)
Definition export_statement (doc : Element)
    (selectors : gmap string Selector) (export : value)
    (name : list string) (selector : string) : result value :=
  descend export (but_last name) (fun exp =>
    sel ← match selectors !! selector with
          | Some sel => Ok sel
          | None => Raise (KeyError selector)
          end;
    nodes ← Lxml.xpath doc (parent sel) (child sel);
    key ← last_item name;
    store exp key (map Lxml.tostring nodes)).

(** [for stmt in ast: ...]; the value is what the locals [selectors]
    and [export] hold after the last statement.  The four classes are
    all a statement can be, so the final [else: print(stmt)] is never
    taken. *)
Fixpoint exec (doc : Element) (ast : list Statement)
    (selectors : gmap string Selector) (export : value) (w : World)
    : World * result (gmap string Selector * value) :=
  match ast with
  | [] => (w, Ok (selectors, export))
  | stmt :: ast' =>
      match stmt with
      | LocaleStatement l =>
          match setlocale l w with
          | (w', Ok _) => exec doc ast' selectors export w'
          | (w', Raise e) => (w', Raise e)
          end
      | SelectorStatement n s =>
          exec doc ast' (<[n := s]> selectors) export w
      | Comment _ => exec doc ast' selectors export w
      | ExportStatement n s =>
          match export_statement doc selectors export n s with
          | Ok export' => exec doc ast' selectors export' w
          | Raise e => (w, Raise e)
          end
      end
  end.

(** [run(code, html)], in a module whose global [scraper] is bound to
    the text [scraper].  The call prints [export] and returns [None]. *)
Definition run (scraper : string) (code html : string) (w : World)
    : World * result pyobj :=
  match Peg.parse scraper Grammar.Script with
  | Raise e => (w, Raise e)
  | Ok ast =>
      match fromstring html with
      | Raise e => (w, Raise e)
      | Ok doc =>
          match exec doc ast ∅ (Dict []) w with
          | (w', Ok (_, export)) => (print export w', Ok PyNone)
          | (w', Raise e) => (w', Raise e)
          end
      end
  end.

End Interpreter.

(** ** The notebook's data (cells 4 and 5) and its recorded output (cell 6) *)

Definition lines (l : list string) : string := Text.join LF l.

Definition doc : string := lines [
  "<!DOCTYPE html>";
  "<html>";
  "<body>";
  "    <h1>A Heading</h1>";
  "    <p>A paragraph. It contains <a href='/foo'>a link.</a></p>";
  "    <ol>";
  "        <li>Link <a href='/1.html'>one</a></li>";
  "        <li>Link <a href='/2.html'>two</a></li>";
  "        <li>Link <a href='/3.html'>three</a></li>";
  "    </ol>";
  "</body>";
  "</html>" ].

Definition scraper : string := lines [
  EmptyString;
  "# You can define a locale used for parsing numbers and dates:";
  "locale en_US";
  EmptyString;
  "# The " ++ Lxml.DQUOTE ++ "selector" ++ Lxml.DQUOTE ++ " command defines a selection of HTML";
  "# nodes.";
  "selector paragraph = p -> a";
  "selector list_items = li -> a";
  EmptyString;
  "# The export command defines data elements that should";
  "# be produced as the result of scraping.";
  "export foo.paragraph = paragraph";
  "export foo.list = list_items";
  EmptyString ].

Definition b (markup : string) : bytes := Bytes markup.

Definition anchor (href body : string) : bytes :=
  b ("<a href=" ++ Lxml.DQUOTE ++ href ++ Lxml.DQUOTE ++ ">" ++ body ++ "</a>").

Definition recorded_output : value :=
  Dict [("foo", Dict [
    ("paragraph", Leaf [anchor "/foo" "a link."]);
    ("list", Leaf [anchor "/1.html" "one"; anchor "/2.html" "two";
                   anchor "/3.html" "three"]) ])].

(** A host on which the locales of the examples are installed. *)
Definition installed (name : string) : bool :=
  bool_decide (name ∈ ["C"; "POSIX"; "en_US"]).

Definition fresh : World := mkWorld "C" [].

(** ** Vocabulary of the properties *)

(** The object reached from [v] through the keys of [path]. *)
Fixpoint at_path (v : value) (path : list string) : option value :=
  match path with
  | [] => Some v
  | k :: path' =>
      match v with
      | Dict d =>
          match PyDict.get d k with
          | Some sub => at_path sub path'
          | None => None
          end
      | Leaf _ => None
      end
  end.

Definition is_leaf (o : option value) : bool :=
  match o with Some (Leaf _) => true | _ => false end.

(** The descent of an export statement followed by its final store. *)
Definition insert_at (exp : value) (names : list string) (key : string)
    (items : list bytes) : result value :=
  descend exp names (fun e => store e key items).

(** What an export statement works out between its descent and its
    final store: the selector, the matched nodes serialised, and the last
    segment of the path. *)
Definition resolve (doc : Element) (selectors : gmap string Selector)
    (name : list string) (selector : string) : result (string * list bytes) :=
  sel ← match selectors !! selector with
        | Some sel => Ok sel
        | None => Raise (KeyError selector)
        end;
  nodes ← Lxml.xpath doc (parent sel) (child sel);
  key ← last_item name;
  Ok (key, map Lxml.tostring nodes).

(** A stored list sits on a prefix of [p]. *)
Definition leaf_on (exp : value) (p : list string) : Prop :=
  ∃ p', p' `prefix_of` p ∧ is_leaf (at_path exp p') = true.

(** The descent through [names] runs into a stored list. *)
Fixpoint blocked (exp : value) (names : list string) : bool :=
  match names with
  | [] => false
  | name :: names' =>
      match exp with
      | Leaf _ => true
      | Dict d =>
          match PyDict.get d name with
          | Some sub => blocked sub names'
          | None => false
          end
      end
  end.

Definition proper_prefix (p q : list string) : Prop := p `prefix_of` q ∧ p ≠ q.

Definition comparable (p q : list string) : Prop :=
  p `prefix_of` q ∨ q `prefix_of` p.

(** The selector the last declaration of [a] in [ast] binds, if any. *)
Fixpoint declared_last (a : string) (ast : list Statement) : option Selector :=
  match ast with
  | [] => None
  | stmt :: ast' =>
      match declared_last a ast', stmt with
      | Some s, _ => Some s
      | None, SelectorStatement n s => if String.eqb n a then Some s else None
      | None, _ => None
      end
  end.

(** The locale the last locale statement of [ast] names, if any. *)
Fixpoint last_locale (ast : list Statement) : option string :=
  match ast with
  | [] => None
  | stmt :: ast' =>
      match last_locale ast', stmt with
      | Some l, _ => Some l
      | None, LocaleStatement l => Some l
      | None, _ => None
      end
  end.

(** The dotted paths of the export statements of [ast], in order. *)
Fixpoint export_paths (ast : list Statement) : list (list string) :=
  match ast with
  | [] => []
  | ExportStatement n _ :: ast' => n :: export_paths ast'
  | _ :: ast' => export_paths ast'
  end.

(** The tokens of a statement, and of a script, written without any
    white space between them. *)
Definition render (stmt : Statement) : string :=
  match stmt with
  | Comment t => "#" ++ t
  | LocaleStatement l => "locale" ++ l
  | SelectorStatement n s => "selector" ++ n ++ "=" ++ parent s ++ "->" ++ child s
  | ExportStatement n s => "export" ++ Text.join "." n ++ "=" ++ s
  end.

Definition render_all (ast : list Statement) : string :=
  Lxml.concat_strings (map render ast).

(** The element [p], where it matches, leaves no more text than it was
    given and accounts for what it took: up to white space, the text is
    [r] of the value built followed by the text left. *)
Definition reads {A} (p : Peg.parser A) (r : A -> string) : Prop :=
  forall text t a, p text = (t, Ok a) ->
    Text.ink text = Text.ink (r a) ++ Text.ink t
    /\ (String.length t <= String.length text)%nat.

(** The element [p], where it matches, takes at least one character. *)
Definition consumes {A} (p : Peg.parser A) : Prop :=
  forall text t a, p text = (t, Ok a) ->
    (String.length t < String.length text)%nat.

(** The statement element [p], where it matches, takes at least one
    character and accounts for what it took with the statement built. *)
Definition takes (p : Peg.parser Statement) : Prop :=
  forall text t stmt, p text = (t, Ok stmt) ->
    Text.ink text = Text.ink (render stmt) ++ Text.ink t
    /\ (String.length t < String.length text)%nat.

(** The lines of a text ([str.split] at line feeds). *)
Fixpoint lines_of (text : string) : list string :=
  match text with
  | EmptyString => [EmptyString]
  | String c text' =>
      if Text.is_dot c then
        match lines_of text' with
        | l :: ls => String c l :: ls
        | [] => [String c EmptyString]
        end
      else EmptyString :: lines_of text'
  end.

Definition is_blank (line : string) : bool := Text.forallb Text.is_space line.

(** The line, on its own, is one statement of the grammar. *)
Definition is_statement_line (line : string) : bool :=
  match Grammar.statement (Peg.skip line) with
  | (t, Ok _) => Text.empty t
  | (_, Raise _) => false
  end.

(** [needle in haystack] *)
Fixpoint is_substring (needle haystack : string) : bool :=
  match Text.strip_prefix needle haystack with
  | Some _ => true
  | None =>
      match haystack with
      | EmptyString => false
      | String _ h' => is_substring needle h'
      end
  end.

(** All elements below [e], in document order, each with its parent. *)
Fixpoint descendants (e : Element) : list (Element * Element) :=
  flat_map (fun c => (e, c) :: descendants c) (Lxml.children e).

Definition child_of (parent child : string) (pc : Element * Element) : bool :=
  String.eqb (Lxml.tag (fst pc)) parent && String.eqb (Lxml.tag (snd pc)) child.

(** Modelled on the words of the specification for [parent -> child]:
    the elements named [child] that have an element named [parent] on
    their ancestor-or-self chain, in document order.  [inside] tells that
    an ancestor is named [parent]. *)
Fixpoint spec_resolve_from (inside : bool) (parent child : string)
    (e : Element) : list Element :=
  let inside' := inside || String.eqb (Lxml.tag e) parent in
  app (if inside' && String.eqb (Lxml.tag e) child then [e] else [])
      (flat_map (spec_resolve_from inside' parent child) (Lxml.children e)).

Definition spec_resolve (parent child : string) (doc : Element) : list Element :=
  spec_resolve_from false parent child doc.

(** The tree of the end-to-end example. *)
Definition paragraph_export : value :=
  Dict [("foo", Dict [("paragraph", Leaf [anchor "/foo" "a link."])])].

Definition nested_document : string := "<p><b><a/></b></p>".

Definition nested_tree : Element :=
  mkElement "p" [] EmptyString [ mkElement "b" [] EmptyString [ mkElement "a" [] EmptyString [] EmptyString ] EmptyString ] EmptyString.

(** ** The display methods of cell 2

    [LocaleStatement.__repr__], [Selector.__str__] and
    [SelectorStatement.__str__]: what [print(stmt)] would write. *)

(** ['LocaleStatement[{}]'.format(self.locale)] *)
Definition LocaleStatement_repr (locale : string) : string :=
  "LocaleStatement[" ++ locale ++ "]".

(** ['Selector[parent={} child={}]'.format(self.parent, self.child)] *)
Definition Selector_str (s : Selector) : string :=
  "Selector[parent=" ++ parent s ++ " child=" ++ child s ++ "]".

(** ['SelectorStatement[{} = {}]'.format(self.name, self.selector)] *)
Definition SelectorStatement_str (name : string) (s : Selector) : string :=
  "SelectorStatement[" ++ name ++ " = " ++ Selector_str s ++ "]".

(** ** Vocabulary of the further properties *)

(** A match of [\w+]: one word character or more. *)
Definition is_word (w : string) : bool :=
  negb (Text.empty w) && Text.forallb Text.is_word_char w.

(** The text is empty or its first character satisfies [f]. *)
Definition starts (f : ascii -> bool) (t : string) : bool :=
  match t with
  | EmptyString => true
  | String c _ => f c
  end.

Definition not_space (c : ascii) : bool := negb (Text.is_space c).
Definition not_word_char (c : ascii) : bool := negb (Text.is_word_char c).

(** What [restline] can give after the skip that follows [#]: no line
    feed inside, no white space in front. *)
Definition is_comment_text (t : string) : bool :=
  Text.forallb Text.is_dot t && starts not_space t.

(** The shape of the statements the parser builds. *)
Definition wf_statement (stmt : Statement) : bool :=
  match stmt with
  | Comment t => is_comment_text t
  | LocaleStatement l => is_word l
  | SelectorStatement n s => is_word n && is_word (parent s) && is_word (child s)
  | ExportStatement n s =>
      match n with [] => false | _ => forallb is_word n end && is_word s
  end.

(** A statement that can be written down and read back anywhere in a
    script: well formed, and its comment text, if any, not empty. *)
Definition printable (stmt : Statement) : bool :=
  wf_statement stmt
  && match stmt with Comment t => negb (Text.empty t) | _ => true end.

(** A statement written with the gap [g] between its tokens, and a
    script written one statement a line.  [g] is white space, possibly
    none. *)
Definition spell (g : string) (stmt : Statement) : string :=
  match stmt with
  | Comment t => "#" ++ g ++ t
  | LocaleStatement l => "locale" ++ g ++ l
  | SelectorStatement n s =>
      "selector" ++ g ++ n ++ g ++ "=" ++ g ++ parent s ++ g ++ "->" ++ g ++ child s
  | ExportStatement n s =>
      "export" ++ g ++ Text.join "." n ++ g ++ "=" ++ g ++ s
  end.

Fixpoint unparse (g : string) (ast : list Statement) : string :=
  match ast with
  | [] => EmptyString
  | stmt :: ast' => spell g stmt ++ LF ++ unparse g ast'
  end.

Definition is_comment (stmt : Statement) : bool :=
  match stmt with Comment _ => true | _ => false end.

(** The statements of [ast] that are no comments. *)
Definition strip_comments (ast : list Statement) : list Statement :=
  List.filter (fun stmt => negb (is_comment stmt)) ast.

(** [stmt] neither declares the selector name [a] nor exports it. *)
Definition independent (a : string) (stmt : Statement) : bool :=
  match stmt with
  | SelectorStatement n _ => negb (String.eqb n a)
  | ExportStatement _ s => negb (String.eqb s a)
  | _ => true
  end.

(** The segments after the first of a dotted name, each behind its dot. *)
Definition dots (xs : list string) : string :=
  Lxml.concat_strings (map (fun w => "." ++ w) xs).

(** [str(stmt)], for the two statement classes that define it
    ([LocaleStatement] through [__repr__]).  [Comment] and
    [ExportStatement] define neither method. *)
Definition display (stmt : Statement) : option string :=
  match stmt with
  | LocaleStatement l => Some (LocaleStatement_repr l)
  | SelectorStatement n s => Some (SelectorStatement_str n s)
  | Comment _ | ExportStatement _ _ => None
  end.

(** Whatever is found in [exp] below the root lies on one of the paths
    [P], and a list only at the end of one. *)
Definition on_paths (P : list (list string)) (exp : value) : Prop :=
  forall p v, p <> [] -> at_path exp p = Some v ->
    exists q, q ∈ P /\ p `prefix_of` q /\ (is_leaf (Some v) = true -> p = q).

(** The text has ASCII characters only. *)
Definition is_ascii (s : string) : bool :=
  Text.forallb (fun c => Nat.ltb (Text.code c) 128) s.

(** [e] is found in the document: the root or an element below it is
    [e], whatever text follows its end tag there. *)
Inductive contains (e : Element) : Element -> Prop :=
  | contains_here t a x c tl tl' :
      e = mkElement t a x c tl -> contains e (mkElement t a x c tl')
  | contains_below t a x c tl ch :
      ch ∈ c -> contains e ch -> contains e (mkElement t a x c tl).

(** The errors of the statement loop. *)
Definition loop_error (ast : list Statement) (e : exn) : Prop :=
  e = LocaleError \/ e = XPathEvalError \/ e = TypeError
  \/ exists n s, ExportStatement n s ∈ ast /\ e = KeyError s.

(** * Properties *)

Local Close Scope string_scope.
Local Open Scope list_scope.

(** ** The model reproduces the notebook *)

Example parse_three_line_script :
  Peg.parse three_line_script Grammar.Script =
  Ok [ LocaleStatement "en_US";
       SelectorStatement "paragraph" (mkSelector "p" "a");
       ExportStatement ["foo"; "paragraph"] "paragraph" ].
Proof. vm_compute. reflexivity. Qed.

Example fromstring_paragraph :
  Lxml.fromstring paragraph_document = Ok paragraph_tree.
Proof. vm_compute. reflexivity. Qed.

Example notebook_cell_6 :
  run Lxml.fromstring installed scraper scraper doc fresh
  = (mkWorld "en_US" [recorded_output], Ok PyNone).
Proof. vm_compute. reflexivity. Qed.

(** ** Dictionaries and paths *)

Section DictFacts.
Context {V : Type}.
Implicit Types (d : list (string * V)) (k : string) (v : V).

Lemma get_set_eq d k v : PyDict.get (PyDict.set d k v) k = Some v.
Proof.
  induction d as [|[k' v'] d IH]; simpl.
  - by rewrite String.eqb_refl.
  - destruct (String.eqb k' k) eqn:E; simpl; rewrite E; done.
Qed.

Lemma get_set_ne d k k' v :
  k ≠ k' → PyDict.get (PyDict.set d k v) k' = PyDict.get d k'.
Proof.
  intros Hne. induction d as [|[k0 v0] d IH]; simpl.
  - destruct (String.eqb k k') eqn:E; [|done].
    apply String.eqb_eq in E. done.
  - destruct (String.eqb k0 k) eqn:E; simpl.
    + apply String.eqb_eq in E. subst k0.
      destruct (String.eqb k k') eqn:E'; [|done].
      apply String.eqb_eq in E'. done.
    + by rewrite IH.
Qed.

Lemma contains_get d k :
  PyDict.contains d k = true → ∃ v, PyDict.get d k = Some v.
Proof. unfold PyDict.contains. destruct (PyDict.get d k); eauto. done. Qed.

Lemma not_contains_get d k :
  PyDict.contains d k = false → PyDict.get d k = None.
Proof. unfold PyDict.contains. by destruct (PyDict.get d k). Qed.
End DictFacts.

(** One round of the descent: the dictionary after [if name not in exp:
    exp[name] = dict()] and the object [exp[name]]. *)
Lemma descend_step d name :
  ∃ sub, PyDict.get (if PyDict.contains d name then d
                     else PyDict.set d name (Dict [])) name = Some sub
         ∧ (PyDict.get d name = Some sub
            ∨ PyDict.get d name = None ∧ sub = Dict []).
Proof.
  destruct (PyDict.contains d name) eqn:E.
  - apply contains_get in E as [v Hv]. eauto.
  - apply not_contains_get in E. rewrite get_set_eq. eauto.
Qed.

Lemma at_path_app v p q :
  at_path v (p ++ q) = at_path v p ≫= λ u, at_path u q.
Proof.
  revert v. induction p as [|k p IH]; intros v; simpl; [done|].
  destruct v as [|d]; [done|]. destruct (PyDict.get d k); [apply IH|done].
Qed.

Lemma at_path_leaf_nil l p u : at_path (Leaf l) p = Some u → p = [].
Proof. by destruct p. Qed.

(** ** The descent and the final store *)

Lemma descend_cons_Ok exp name names body exp' :
  descend exp (name :: names) body = Ok exp' →
  ∃ d d1 sub sub',
    exp = Dict d ∧ exp' = Dict (PyDict.set d1 name sub')
    ∧ (∀ k, k ≠ name → PyDict.get d1 k = PyDict.get d k)
    ∧ (PyDict.get d name = Some sub ∨ PyDict.get d name = None ∧ sub = Dict [])
    ∧ descend sub names body = Ok sub'.
Proof.
  simpl. destruct exp as [|d]; [done|].
  destruct (descend_step d name) as (sub & Hsub & Hcase). rewrite Hsub.
  destruct (descend sub names body) as [sub'|] eqn:Hd; simpl; [|done].
  intros [= <-]. eexists d, _, sub, sub'. split; [done|]. split; [done|].
  split; [|done].
  intros k Hk. destruct (PyDict.contains d name); [done|].
  by apply get_set_ne.
Qed.

Lemma descend_raise exp names e :
  descend exp names (fun _ => Raise e)
  = Raise (if blocked exp names then TypeError else e).
Proof.
  revert exp. induction names as [|name names IH]; intros exp; simpl; [done|].
  destruct exp as [|d]; [done|].
  destruct (descend_step d name) as (sub & Hsub & Hcase). rewrite Hsub.
  rewrite IH. simpl.
  destruct Hcase as [-> | [-> ->]]; [done|].
  by destruct names.
Qed.

Lemma store_Ok exp key items exp' :
  store exp key items = Ok exp' →
  ∃ d, exp = Dict d ∧ exp' = Dict (PyDict.set d key (Leaf items)).
Proof. destruct exp as [|d]; simpl; [done|]. intros [= <-]. eauto. Qed.

Lemma insert_at_stored exp names key items exp' :
  insert_at exp names key items = Ok exp' →
  at_path exp' (names ++ [key]) = Some (Leaf items).
Proof.
  unfold insert_at. revert exp exp'.
  induction names as [|name names IH]; intros exp exp' H.
  - apply store_Ok in H as (d & -> & ->). simpl. by rewrite get_set_eq.
  - apply descend_cons_Ok in H as (d & d1 & sub & sub' & -> & -> & _ & _ & H).
    simpl. rewrite get_set_eq. eauto.
Qed.

Lemma comparable_cons k p q : comparable p q → comparable (k :: p) (k :: q).
Proof. intros [H|H]; [left|right]; by apply prefix_cons. Qed.

Lemma insert_at_frame exp names key items exp' p :
  insert_at exp names key items = Ok exp' →
  ¬ comparable (names ++ [key]) p →
  at_path exp' p = at_path exp p.
Proof.
  unfold insert_at. revert exp exp' p.
  induction names as [|name names IH]; intros exp exp' p H Hp.
  - apply store_Ok in H as (d & -> & ->).
    destruct p as [|k p]; [destruct Hp; right; apply prefix_nil|].
    simpl. destruct (decide (key = k)) as [->|Hne].
    + destruct Hp. left. apply prefix_cons, prefix_nil.
    + by rewrite get_set_ne.
  - apply descend_cons_Ok in H as (d & d1 & sub & sub' & -> & -> & Hd1 & Hsub & H).
    destruct p as [|k p]; [destruct Hp; right; apply prefix_nil|].
    simpl. destruct (decide (name = k)) as [->|Hne].
    + rewrite get_set_eq.
      assert (Hp' : ¬ comparable (names ++ [key]) p).
      { intros Hc. apply Hp. by apply comparable_cons. }
      rewrite (IH _ _ _ H Hp').
      destruct Hsub as [-> | [-> ->]]; [done|].
      destruct p as [|k' p]; [|done].
      destruct Hp'. right. apply prefix_nil.
    + rewrite get_set_ne by done. by rewrite Hd1.
Qed.

(** A successful export passed through dictionaries only. *)
Lemma insert_at_through exp names key items exp' p :
  insert_at exp names key items = Ok exp' →
  p `prefix_of` names →
  is_leaf (at_path exp p) = false ∧ ∃ d, at_path exp' p = Some (Dict d).
Proof.
  unfold insert_at. revert exp exp' p.
  induction names as [|name names IH]; intros exp exp' p H Hp.
  - apply prefix_nil_inv in Hp as ->.
    apply store_Ok in H as (d & -> & ->). simpl. eauto.
  - apply descend_cons_Ok in H as (d & d1 & sub & sub' & -> & -> & Hd1 & Hsub & H).
    destruct p as [|k p]; [simpl; eauto|].
    apply prefix_cons_inv_1 in Hp as Hk. apply prefix_cons_inv_2 in Hp. subst k.
    simpl. rewrite get_set_eq.
    destruct (IH _ _ _ H Hp) as [Hl Hd]. split; [|done].
    destruct Hsub as [-> | [-> ->]]; [done|done].
Qed.

(** Without a stored list on the way the export goes through. *)
Lemma insert_at_total exp names key items :
  (∀ p, p `prefix_of` names → is_leaf (at_path exp p) = false) →
  ∃ exp', insert_at exp names key items = Ok exp'.
Proof.
  unfold insert_at. revert exp.
  induction names as [|name names IH]; intros exp Hfree.
  - specialize (Hfree [] (prefix_nil _)). simpl in *.
    destruct exp as [|d]; [done|]. eauto.
  - pose proof (Hfree [] (prefix_nil _)) as H0. simpl in H0.
    destruct exp as [|d]; [done|]. simpl.
    destruct (descend_step d name) as (sub & Hsub & Hcase). rewrite Hsub.
    destruct (IH sub) as [sub' Hsub'].
    { intros p Hp. specialize (Hfree (name :: p) (prefix_cons _ _ _ Hp)).
      simpl in Hfree. destruct Hcase as [Hg | [Hg ->]].
      - by rewrite Hg in Hfree.
      - by destruct p. }
    rewrite Hsub'. simpl. eauto.
Qed.

(** ** One export statement *)

Lemma export_statement_eq doc selectors exp name selector :
  export_statement doc selectors exp name selector =
  match resolve doc selectors name selector with
  | Ok (key, items) => insert_at exp (but_last name) key items
  | Raise e => descend exp (but_last name) (fun _ => Raise e)
  end.
Proof.
  unfold export_statement, resolve, insert_at.
  destruct (selectors !! selector) as [sel|]; simpl; [|done].
  destruct (Lxml.xpath doc (parent sel) (child sel)) as [nodes|]; simpl; [|done].
  destruct (last_item name) as [key|]; simpl; done.
Qed.

Lemma last_item_Ok {A} (l : list A) x :
  last_item l = Ok x → l = (but_last l ++ [x])%list.
Proof.
  unfold last_item, but_last. induction l as [|a l IH]; [done|].
  destruct l as [|a' l]; [by intros [= ->]|].
  intros H. specialize (IH H). simpl in *. by rewrite <- IH.
Qed.

Lemma resolve_key doc selectors name selector key items :
  resolve doc selectors name selector = Ok (key, items) →
  name = (but_last name ++ [key])%list.
Proof.
  unfold resolve.
  destruct (selectors !! selector) as [sel|]; simpl; [|done].
  destruct (Lxml.xpath doc (parent sel) (child sel)); simpl; [|done].
  destruct (last_item name) as [k|] eqn:E; simpl; [|done].
  intros [= -> _]. by apply last_item_Ok.
Qed.

Lemma resolve_not_TypeError doc selectors name selector :
  resolve doc selectors name selector ≠ Raise TypeError.
Proof.
  unfold resolve.
  destruct (selectors !! selector) as [sel|]; simpl; [|done].
  unfold Lxml.xpath.
  destruct (Lxml.is_name (parent sel) && Lxml.is_name (child sel)); simpl; [|done].
  unfold last_item. destruct (last name); simpl; done.
Qed.

Lemma export_statement_Ok doc selectors exp name selector exp' :
  export_statement doc selectors exp name selector = Ok exp' →
  ∃ key items,
    resolve doc selectors name selector = Ok (key, items)
    ∧ name = (but_last name ++ [key])%list
    ∧ insert_at exp (but_last name) key items = Ok exp'.
Proof.
  rewrite export_statement_eq.
  destruct (resolve doc selectors name selector) as [[key items]|e] eqn:E.
  - intros H. exists key, items. split; [done|]. split; [|done].
    by eapply resolve_key.
  - by rewrite descend_raise.
Qed.

Lemma export_statement_stored doc selectors exp name selector exp' :
  export_statement doc selectors exp name selector = Ok exp' →
  ∃ key items,
    resolve doc selectors name selector = Ok (key, items)
    ∧ at_path exp' name = Some (Leaf items).
Proof.
  intros H. apply export_statement_Ok in H as (key & items & Hr & Hn & Hi).
  exists key, items. split; [done|]. rewrite Hn. by eapply insert_at_stored.
Qed.

Lemma export_statement_frame doc selectors exp name selector exp' p :
  export_statement doc selectors exp name selector = Ok exp' →
  ¬ comparable name p →
  at_path exp' p = at_path exp p.
Proof.
  intros H Hp. apply export_statement_Ok in H as (key & items & Hr & Hn & Hi).
  eapply insert_at_frame; [done|]. by rewrite <- Hn.
Qed.

Lemma proper_prefix_but_last (p q : list string) key :
  p `prefix_of` (q ++ [key])%list → p ≠ (q ++ [key])%list → p `prefix_of` q.
Proof.
  intros [k Hk] Hne. destruct (decide (k = [])) as [->|Hk'].
  - rewrite app_nil_r in Hk. done.
  - destruct (exists_last Hk') as (k' & x & ->).
    rewrite app_assoc in Hk. apply app_inj_tail in Hk as [-> _].
    by apply prefix_app_r.
Qed.

Lemma export_statement_through doc selectors exp name selector exp' p :
  export_statement doc selectors exp name selector = Ok exp' →
  proper_prefix p name →
  is_leaf (at_path exp p) = false ∧ ∃ d, at_path exp' p = Some (Dict d).
Proof.
  intros H [Hp Hne]. apply export_statement_Ok in H as (key & items & Hr & Hn & Hi).
  eapply insert_at_through; [done|].
  rewrite Hn in Hp, Hne. by eapply proper_prefix_but_last.
Qed.

Lemma blocked_leaf exp names :
  blocked exp names = true →
  ∃ p, p `prefix_of` names ∧ is_leaf (at_path exp p) = true.
Proof.
  revert exp. induction names as [|name names IH]; intros exp; simpl; [done|].
  destruct exp as [l|d].
  - intros _. exists []. split; [apply prefix_nil|done].
  - destruct (PyDict.get d name) as [sub|] eqn:E; [|done].
    intros H. destruct (IH _ H) as (p & Hp & Hl).
    exists (name :: p). split; [by apply prefix_cons|]. simpl. by rewrite E.
Qed.

Lemma leaf_on_export doc selectors exp name selector exp' p :
  export_statement doc selectors exp name selector = Ok exp' →
  leaf_on exp p → leaf_on exp' p.
Proof.
  intros H (p' & Hp' & Hl).
  destruct (decide (name `prefix_of` p')) as [Hq|Hq].
  - apply export_statement_stored in H as (key & items & _ & Hs).
    exists name. split; [by etrans|]. by rewrite Hs.
  - destruct (decide (p' `prefix_of` name)) as [Hq'|Hq'].
    + assert (Hpp : proper_prefix p' name).
      { split; [done|]. intros ->. by apply Hq. }
      destruct (export_statement_through _ _ _ _ _ _ _ H Hpp) as [Hl' _].
      congruence.
    + exists p'. split; [done|].
      rewrite (export_statement_frame _ _ _ _ _ _ _ H); [done|].
      intros [?|?]; done.
Qed.

(** ** The statement loop *)

Section ExecFacts.
Context (avail : string → bool) (doc : Element).
Implicit Types (ast : list Statement) (selectors : gmap string Selector)
  (export : value) (w : World).

Lemma exec_app ast1 ast2 selectors export w :
  exec avail doc (ast1 ++ ast2) selectors export w =
  match exec avail doc ast1 selectors export w with
  | (w1, Ok (selectors1, export1)) => exec avail doc ast2 selectors1 export1 w1
  | (w1, Raise e) => (w1, Raise e)
  end.
Proof.
  revert selectors export w.
  induction ast1 as [|stmt ast1 IH]; intros selectors export w; simpl; [done|].
  destruct stmt as [t|l|n s|n s]; try apply IH.
  - unfold setlocale. destruct (avail l); [apply IH|done].
  - destruct (export_statement doc selectors export n s); [apply IH|done].
Qed.

Lemma exec_selectors ast selectors export w w' selectors' export' a :
  exec avail doc ast selectors export w = (w', Ok (selectors', export')) →
  selectors' !! a = match declared_last a ast with
                    | Some s => Some s
                    | None => selectors !! a
                    end.
Proof.
  revert selectors export w.
  induction ast as [|stmt ast IH]; intros selectors export w; simpl.
  - by intros [= _ <- _].
  - destruct stmt as [t|l|n s|n s].
    + intros H. rewrite (IH _ _ _ H). by destruct (declared_last a ast).
    + unfold setlocale. destruct (avail l); [|done].
      intros H. rewrite (IH _ _ _ H). by destruct (declared_last a ast).
    + intros H. rewrite (IH _ _ _ H). destruct (declared_last a ast); [done|].
      destruct (String.eqb_spec n a) as [->|Hne].
      * by rewrite lookup_insert_eq.
      * by rewrite lookup_insert_ne.
    + destruct (export_statement doc selectors export n s); [|done].
      intros H. rewrite (IH _ _ _ H). by destruct (declared_last a ast).
Qed.

Lemma exec_locale ast selectors export w w' r :
  exec avail doc ast selectors export w = (w', Ok r) →
  LC_ALL w' = default (LC_ALL w) (last_locale ast).
Proof.
  revert selectors export w.
  induction ast as [|stmt ast IH]; intros selectors export w; simpl.
  - by intros [= <- _].
  - destruct stmt as [t|l|n s|n s].
    + intros H. rewrite (IH _ _ _ H). by destruct (last_locale ast).
    + unfold setlocale. destruct (avail l); [|done].
      intros H. rewrite (IH _ _ _ H). by destruct (last_locale ast).
    + intros H. rewrite (IH _ _ _ H). by destruct (last_locale ast).
    + destruct (export_statement doc selectors export n s); [|done].
      intros H. rewrite (IH _ _ _ H). by destruct (last_locale ast).
Qed.

Lemma exec_stdout ast selectors export w w' r :
  exec avail doc ast selectors export w = (w', r) → stdout w' = stdout w.
Proof.
  revert selectors export w.
  induction ast as [|stmt ast IH]; intros selectors export w; simpl.
  - by intros [= <- _].
  - destruct stmt as [t|l|n s|n s]; try apply IH.
    + unfold setlocale. destruct (avail l).
      * intros H. by rewrite (IH _ _ _ H).
      * by intros [= <- _].
    + destruct (export_statement doc selectors export n s).
      * apply IH.
      * by intros [= <- _].
Qed.

Lemma exec_leaf_on ast selectors export w w' selectors' export' p :
  exec avail doc ast selectors export w = (w', Ok (selectors', export')) →
  leaf_on export p → leaf_on export' p.
Proof.
  revert selectors export w.
  induction ast as [|stmt ast IH]; intros selectors export w; simpl.
  - by intros [= _ _ <-].
  - destruct stmt as [t|l|n s|n s]; try apply IH.
    + unfold setlocale. destruct (avail l); [apply IH|done].
    + destruct (export_statement doc selectors export n s) as [export1|] eqn:E;
        [|done].
      intros H Hl. eapply IH; [done|]. by eapply leaf_on_export.
Qed.

(** An export whose path runs through a stored list raises. *)
Lemma export_statement_leaf_on selectors export p q s :
  leaf_on export p → proper_prefix p q →
  ∃ e, export_statement doc selectors export q s = Raise e.
Proof.
  intros (p' & Hp' & Hl) [Hpq Hne].
  destruct (export_statement doc selectors export q s) as [export'|e] eqn:E;
    [|eauto].
  assert (Hpp : proper_prefix p' q).
  { split; [by etrans|]. intros ->. apply Hne. by apply (anti_symm prefix). }
  destruct (export_statement_through _ _ _ _ _ _ _ E Hpp) as [Hl' _].
  congruence.
Qed.

End ExecFacts.

Lemma declared_last_app a ast1 ast2 :
  declared_last a (ast1 ++ ast2) =
  match declared_last a ast2 with
  | Some s => Some s
  | None => declared_last a ast1
  end.
Proof.
  induction ast1 as [|stmt ast1 IH]; simpl.
  - by destruct (declared_last a ast2).
  - rewrite IH. destruct (declared_last a ast2); [done|].
    by destruct (declared_last a ast1).
Qed.

Lemma declared_last_here a s ast :
  declared_last a ast = None →
  declared_last a (SelectorStatement a s :: ast) = Some s.
Proof. intros H. simpl. rewrite H. by rewrite String.eqb_refl. Qed.

Lemma insert_at_error exp names key items e :
  insert_at exp names key items = Raise e → e = TypeError.
Proof.
  unfold insert_at. revert exp.
  induction names as [|name names IH]; intros exp; simpl.
  - destruct exp; simpl; [by intros [= <-]|done].
  - destruct exp as [|d]; [by intros [= <-]|].
    destruct (descend_step d name) as (sub & Hsub & _). rewrite Hsub.
    destruct (descend sub names _) eqn:E; simpl; [done|].
    intros [= <-]. by eapply IH.
Qed.

(** ** The run as a whole *)

Section RunFacts.
Context (fromstring : string → result Element) (avail : string → bool).

Lemma run_Ok scraper code html w w' r :
  run fromstring avail scraper code html w = (w', Ok r) →
  ∃ ast doc w1 selectors export,
    Peg.parse scraper Grammar.Script = Ok ast
    ∧ fromstring html = Ok doc
    ∧ exec avail doc ast ∅ (Dict []) w = (w1, Ok (selectors, export))
    ∧ w' = print export w1 ∧ r = PyNone.
Proof.
  unfold run.
  destruct (Peg.parse scraper Grammar.Script) as [ast|]; [|done].
  destruct (fromstring html) as [doc|]; [|done].
  destruct (exec avail doc ast ∅ (Dict []) w) as [w1 [[selectors export]|]] eqn:E;
    [|done].
  intros [= <- <-]. by exists ast, doc, w1, selectors, export.
Qed.

Lemma run_exec_Raise scraper code html w ast doc w1 e :
  Peg.parse scraper Grammar.Script = Ok ast →
  fromstring html = Ok doc →
  exec avail doc ast ∅ (Dict []) w = (w1, Raise e) →
  run fromstring avail scraper code html w = (w1, Raise e).
Proof. unfold run. by intros -> -> ->. Qed.

(** A run that raises has printed nothing. *)
Lemma run_Raise_silent scraper code html w w' e :
  run fromstring avail scraper code html w = (w', Raise e) →
  stdout w' = stdout w.
Proof.
  unfold run.
  destruct (Peg.parse scraper Grammar.Script) as [ast|]; [|by intros [= <- _]].
  destruct (fromstring html) as [doc|]; [|by intros [= <- _]].
  destruct (exec avail doc ast ∅ (Dict []) w) as [w1 [[selectors export]|]] eqn:E;
    [done|].
  intros [= <- _]. by eapply exec_stdout.
Qed.

End RunFacts.

(** ** Locale state *)

(** C3, as stated, fails: on a host with the locale [en_US], a run whose
    script is the single statement [locale en_US] leaves the process
    locale changed from [C] to [en_US], and an independent second run,
    whose script sets no locale, starts and ends in that locale. *)
Lemma locale_outlives_the_run :
  let w1 := fst (run Lxml.fromstring installed "locale en_US" EmptyString
                   paragraph_document fresh) in
  let w2 := fst (run Lxml.fromstring installed "# sets no locale" EmptyString
                   paragraph_document w1) in
  LC_ALL fresh = "C" ∧ LC_ALL w1 = "en_US" ∧ LC_ALL w1 ≠ LC_ALL fresh
  ∧ LC_ALL w2 = "en_US".
Proof. vm_compute. repeat split; congruence. Qed.

(** C3, amended: a locale statement sets the locale of the whole process
    ([locale.setlocale(locale.LC_ALL, ...)]).  After a run that returns,
    the process locale is the one the last locale statement of the script
    names, and it is the locale from before the run when the script has
    no locale statement: the setting is shared by successive runs. *)
Theorem locale_is_process_wide
    (fromstring : string → result Element) (avail : string → bool)
    (scraper code html : string) (ast : list Statement) (w w' : World)
    (r : pyobj) :
  Peg.parse scraper Grammar.Script = Ok ast →
  run fromstring avail scraper code html w = (w', Ok r) →
  LC_ALL w' = default (LC_ALL w) (last_locale ast).
Proof.
  intros Hp Hr.
  apply run_Ok in Hr as (ast' & doc & w1 & selectors & export & Hp' & _ & He & -> & _).
  rewrite Hp in Hp'. injection Hp' as <-.
  simpl. by eapply exec_locale.
Qed.

Lemma locale_is_process_wide_witness :
  LC_ALL (fst (run Lxml.fromstring installed three_line_script EmptyString
                 paragraph_document fresh)) = "en_US".
Proof.
  refine (locale_is_process_wide Lxml.fromstring installed three_line_script
            EmptyString paragraph_document _ fresh _ PyNone
            parse_three_line_script _).
  vm_compute. reflexivity.
Defined.

(** ** The [code] parameter *)

(** C4: [run] does not depend on its first parameter.  The script it
    parses is the module-level [scraper]; two calls that differ in
    [code] only give the same result and leave the same state. *)
Theorem run_ignores_code
    (fromstring : string → result Element) (avail : string → bool)
    (scraper s1 s2 html : string) (w : World) :
  run fromstring avail scraper s1 html w = run fromstring avail scraper s2 html w.
Proof. reflexivity. Qed.

(** ** References to selectors *)

(** C6, as stated, fails: [missing] is never declared, yet the export
    that refers to it raises [TypeError], because its path [a.b.c] runs
    through the list stored at [a] before the selector is looked up. *)
Lemma undefined_selector_not_reported :
  let script := lines ["selector s = p -> a"; "export a = s";
                       "export a.b.c = missing"] in
  let pre := [SelectorStatement "s" (mkSelector "p" "a");
              ExportStatement ["a"] "s"] in
  Peg.parse script Grammar.Script
    = Ok (pre ++ [ExportStatement ["a"; "b"; "c"] "missing"])
  ∧ declared_last "missing" pre = None
  ∧ run Lxml.fromstring installed script script paragraph_document fresh
    = (fresh, Raise TypeError)
  ∧ TypeError ≠ KeyError "missing".
Proof. vm_compute. repeat split; congruence. Qed.

(** C6, amended: a script with an export statement whose selector name
    no earlier statement declares never yields a tree: the run raises
    and prints nothing.  When the statements before that export run
    without error and the descent along its path meets no stored list,
    the error is [KeyError] of the undeclared name. *)
Theorem undefined_selector_fails
    (fromstring : string → result Element) (avail : string → bool)
    (scraper code html : string) (w : World)
    (pre post : list Statement) (name : list string) (s : string) :
  Peg.parse scraper Grammar.Script = Ok (pre ++ ExportStatement name s :: post) →
  declared_last s pre = None →
  (∃ w' e, run fromstring avail scraper code html w = (w', Raise e)
           ∧ stdout w' = stdout w)
  ∧ (∀ doc w1 selectors1 export1,
       fromstring html = Ok doc →
       exec avail doc pre ∅ (Dict []) w = (w1, Ok (selectors1, export1)) →
       blocked export1 (but_last name) = false →
       run fromstring avail scraper code html w = (w1, Raise (KeyError s))).
Proof.
  intros Hp Hd.
  assert (Hstep : ∀ doc w1 selectors1 export1,
    exec avail doc pre ∅ (Dict []) w = (w1, Ok (selectors1, export1)) →
    exec avail doc (pre ++ ExportStatement name s :: post) ∅ (Dict []) w
    = (w1, Raise (if blocked export1 (but_last name) then TypeError
                  else KeyError s))).
  { intros doc w1 selectors1 export1 He. rewrite exec_app, He. simpl.
    pose proof (exec_selectors _ _ _ _ _ _ _ _ _ s He) as Hs.
    rewrite Hd, lookup_empty in Hs.
    rewrite export_statement_eq. unfold resolve. rewrite Hs. simpl.
    by rewrite descend_raise. }
  split.
  - destruct (run fromstring avail scraper code html w) as [w' [r|e]] eqn:Hr.
    + exfalso.
      apply run_Ok in Hr as (ast & doc & w1 & selectors & export & Hp' & _ & He & _).
      rewrite Hp in Hp'. injection Hp' as <-.
      destruct (exec avail doc pre ∅ (Dict []) w) as [w2 [[selectors2 export2]|]] eqn:E.
      * specialize (Hstep doc w2 selectors2 export2 E). congruence.
      * rewrite exec_app, E in He. done.
    + exists w', e. split; [done|]. by eapply run_Raise_silent.
  - intros doc w1 selectors1 export1 Hdoc He Hb.
    eapply run_exec_Raise; [done..|].
    rewrite (Hstep _ _ _ _ He). by rewrite Hb.
Qed.

Lemma undefined_selector_fails_witness :
  run Lxml.fromstring installed "export out.v = missing" EmptyString
    paragraph_document fresh
  = (fresh, Raise (KeyError "missing")).
Proof.
  refine (proj2 (undefined_selector_fails Lxml.fromstring installed
                   "export out.v = missing" EmptyString paragraph_document fresh
                   [] [] ["out"; "v"] "missing" _ _)
            paragraph_tree fresh ∅ (Dict []) _ _ _);
    vm_compute; reflexivity.
Defined.

(** C7: when a script declares the selector name [a] twice, [s2] being
    the last declaration before an export of [a], that export resolves
    with [s2] only: [selectors[a]] is [s2] and the list stored at the
    export path is the serialised node set of [s2]. *)
Theorem last_declaration_wins
    (avail : string → bool) (doc : Element)
    (pre mid post : list Statement) (a : string) (s1 s2 : Selector)
    (name : list string) (selectors0 : gmap string Selector) (export0 : value)
    (w w' : World) (selectors : gmap string Selector) (export : value) :
  declared_last a post = None →
  exec avail doc
    (pre ++ SelectorStatement a s1 :: mid ++ SelectorStatement a s2 :: post
         ++ [ExportStatement name a])
    selectors0 export0 w = (w', Ok (selectors, export)) →
  selectors !! a = Some s2
  ∧ ∃ nodes, Lxml.xpath doc (parent s2) (child s2) = Ok nodes
             ∧ at_path export name = Some (Leaf (map Lxml.tostring nodes)).
Proof.
  intros Hpost He.
  replace (pre ++ SelectorStatement a s1 :: mid ++ SelectorStatement a s2 :: post
               ++ [ExportStatement name a])
    with ((pre ++ SelectorStatement a s1 :: mid ++ SelectorStatement a s2 :: post)
            ++ [ExportStatement name a]) in He
    by (by rewrite <- !app_assoc, <- !app_comm_cons, <- !app_assoc).
  set (before := pre ++ _) in He.
  rewrite exec_app in He.
  destruct (exec avail doc before selectors0 export0 w)
    as [w1 [[selectors1 export1]|]] eqn:E; [|done].
  pose proof (exec_selectors _ _ _ _ _ _ _ _ _ a E) as Hs.
  assert (Hlast : declared_last a before = Some s2).
  { unfold before. rewrite declared_last_app.
    change (SelectorStatement a s1 :: mid ++ SelectorStatement a s2 :: post)
      with ((SelectorStatement a s1 :: mid) ++ SelectorStatement a s2 :: post).
    rewrite declared_last_app. by rewrite (declared_last_here _ _ _ Hpost). }
  rewrite Hlast in Hs. simpl in He.
  destruct (export_statement doc selectors1 export1 name a) as [export2|] eqn:Ex;
    [|done].
  injection He as _ <- <-. split; [done|].
  apply export_statement_stored in Ex as (key & items & Hr & Hat).
  unfold resolve in Hr. rewrite Hs in Hr. simpl in Hr.
  destruct (Lxml.xpath doc (parent s2) (child s2)) as [nodes|]; simpl in Hr; [|done].
  destruct (last_item name); simpl in Hr; [|done].
  injection Hr as _ <-. eauto.
Qed.

Lemma last_declaration_wins_witness :
  ∃ selectors export,
    exec installed paragraph_tree
      ([] ++ SelectorStatement "a" (mkSelector "x" "y")
          :: [] ++ SelectorStatement "a" (mkSelector "p" "a")
          :: [] ++ [ExportStatement ["out"] "a"]) ∅ (Dict []) fresh
    = (fresh, Ok (selectors, export))
    ∧ selectors !! "a" = Some (mkSelector "p" "a")
    ∧ at_path export ["out"] = Some (Leaf [anchor "/foo" "a link."]).
Proof.
  eexists _, _. split; [vm_compute; reflexivity|].
  edestruct (last_declaration_wins installed paragraph_tree [] [] [] "a"
               (mkSelector "x" "y") (mkSelector "p" "a") ["out"] ∅ (Dict [])
               fresh) as [Hs (nodes & Hx & Hat)];
    [reflexivity | vm_compute; reflexivity |].
  split; [exact Hs|]. vm_compute in Hx. injection Hx as <-. exact Hat.
Defined.

(** ** Export paths *)

(** C8, as stated, fails: the paths [x.a.b] and [x.a] are distinct and
    share the proper prefix [x], and the second export replaces the
    mapping at [x.a], in which the first had stored its list. *)
Lemma shorter_path_overwrites :
  let p := ["x"; "a"; "b"] in
  let q := ["x"; "a"] in
  let selectors : gmap string Selector := <["s" := mkSelector "p" "a"]> ∅ in
  p ≠ q ∧ proper_prefix ["x"] p ∧ proper_prefix ["x"] q
  ∧ ∃ export1 export2,
      export_statement paragraph_tree selectors (Dict []) p "s" = Ok export1
      ∧ at_path export1 p = Some (Leaf [anchor "/foo" "a link."])
      ∧ export_statement paragraph_tree selectors export1 q "s" = Ok export2
      ∧ at_path export2 p = None.
Proof.
  repeat split; try discriminate.
  - by exists ["a"; "b"].
  - by exists ["a"].
  - eexists _, _. repeat split; vm_compute; reflexivity.
Qed.

(** C8, amended: for two export statements neither of whose paths is a
    prefix of the other, evaluating the second leaves the list the first
    stored unchanged and stores its own; more generally the second
    changes nothing at any path that is neither a prefix nor an
    extension of its own. *)
Theorem export_frame
    (doc : Element) (selectors1 selectors2 : gmap string Selector)
    (export0 export1 export2 : value) (p q : list string) (s1 s2 : string) :
  ¬ comparable p q →
  export_statement doc selectors1 export0 p s1 = Ok export1 →
  export_statement doc selectors2 export1 q s2 = Ok export2 →
  (∃ items1 items2,
     at_path export1 p = Some (Leaf items1)
     ∧ at_path export2 p = Some (Leaf items1)
     ∧ at_path export2 q = Some (Leaf items2))
  ∧ (∀ r, ¬ comparable q r → at_path export2 r = at_path export1 r).
Proof.
  intros Hpq H1 H2.
  assert (Hframe : ∀ r, ¬ comparable q r → at_path export2 r = at_path export1 r).
  { intros r Hr. by eapply export_statement_frame. }
  split; [|done].
  apply export_statement_stored in H1 as (k1 & items1 & _ & Hat1).
  apply export_statement_stored in H2 as (k2 & items2 & _ & Hat2).
  exists items1, items2. split; [done|]. split; [|done].
  rewrite Hframe; [done|]. intros [?|?]; apply Hpq; [by right|by left].
Qed.

Lemma export_frame_witness :
  let selectors : gmap string Selector :=
    <["sel2" := mkSelector "li" "a"]> (<["sel1" := mkSelector "p" "a"]> ∅) in
  ∃ export1 export2 d,
    export_statement paragraph_tree selectors (Dict []) ["a"; "b"; "c"] "sel1"
      = Ok export1
    ∧ export_statement paragraph_tree selectors export1 ["a"; "b"; "d"] "sel2"
      = Ok export2
    ∧ at_path export2 ["a"; "b"] = Some (Dict d)
    ∧ PyDict.get d "c" = Some (Leaf [anchor "/foo" "a link."])
    ∧ PyDict.get d "d" = Some (Leaf [])
    ∧ at_path export2 ["a"; "b"; "c"] = at_path export1 ["a"; "b"; "c"].
Proof.
  intros selectors. eexists _, _, _.
  split; [vm_compute; reflexivity|]. split; [vm_compute; reflexivity|].
  split; [vm_compute; reflexivity|]. split; [vm_compute; reflexivity|].
  split; [vm_compute; reflexivity|].
  refine (proj2 (export_frame paragraph_tree selectors selectors (Dict []) _ _
                   ["a"; "b"; "c"] ["a"; "b"; "d"] "sel1" "sel2" _ _ _)
            ["a"; "b"; "c"] _).
  - intros [[k Hk]|[k Hk]]; discriminate.
  - vm_compute; reflexivity.
  - vm_compute; reflexivity.
  - intros [[k Hk]|[k Hk]]; discriminate.
Defined.

Lemma prefix_but_last_proper (p q : list string) :
  q ≠ [] → p `prefix_of` but_last q → proper_prefix p q.
Proof.
  intros Hq Hp. rewrite (app_removelast_last EmptyString Hq).
  unfold but_last in Hp. split.
  - by apply prefix_app_r.
  - intros ->. apply prefix_length in Hp. rewrite length_app in Hp. simpl in Hp. lia.
Qed.

Lemma export_no_TypeError doc selectors export q s :
  (∀ p, proper_prefix p q → is_leaf (at_path export p) = false) →
  export_statement doc selectors export q s ≠ Raise TypeError.
Proof.
  intros Hfree. rewrite export_statement_eq.
  destruct (resolve doc selectors q s) as [[key items]|e] eqn:E.
  - destruct (insert_at_total export (but_last q) key items) as [export' ->]; [|done].
    intros p Hp. apply Hfree. apply prefix_but_last_proper; [|done].
    apply resolve_key in E. intros Hq. rewrite Hq in E. simpl in E. done.
  - rewrite descend_raise.
    destruct (blocked export (but_last q)) eqn:Hb.
    + destruct (decide (q = [])) as [->|Hq]; [done|].
      apply blocked_leaf in Hb as (p & Hp & Hl).
      rewrite Hfree in Hl; [done|]. by apply prefix_but_last_proper.
    + intros [= ->]. by eapply resolve_not_TypeError.
Qed.

Lemma export_leaves doc selectors export q s export' (P : list (list string)) :
  (∀ p, is_leaf (at_path export p) = true → p ∈ P) →
  export_statement doc selectors export q s = Ok export' →
  ∀ p, is_leaf (at_path export' p) = true → p ∈ P ++ [q].
Proof.
  intros HP H p Hl. apply elem_of_app.
  destruct (decide (q `prefix_of` p)) as [[k ->]|Hqp].
  - apply export_statement_stored in H as (key & items & _ & Hat).
    rewrite at_path_app, Hat in Hl. simpl in Hl.
    destruct k as [|k0 k]; [|done].
    rewrite app_nil_r. right. by apply list_elem_of_singleton.
  - destruct (decide (p `prefix_of` q)) as [Hpq|Hpq].
    + assert (Hpp : proper_prefix p q).
      { split; [done|]. intros ->. by apply Hqp. }
      destruct (export_statement_through _ _ _ _ _ _ _ H Hpp) as [_ [d Hd]].
      by rewrite Hd in Hl.
    + left. apply HP.
      rewrite <- (export_statement_frame _ _ _ _ _ _ p H); [done|].
      intros [?|?]; done.
Qed.

Section PathFacts.
Context (avail : string → bool) (doc : Element).

Lemma exec_no_TypeError ast (P : list (list string)) selectors export w w' :
  (∀ p, is_leaf (at_path export p) = true → p ∈ P) →
  (∀ p q, p ∈ P ++ export_paths ast → q ∈ export_paths ast →
          ¬ proper_prefix p q) →
  exec avail doc ast selectors export w ≠ (w', Raise TypeError).
Proof.
  revert P selectors export w.
  induction ast as [|stmt ast IH]; intros P selectors export w HP Hfree; simpl;
    [done|].
  destruct stmt as [t|l|n s|n s]; try (by eapply IH).
  - unfold setlocale. destruct (avail l); [by eapply IH|done].
  - simpl in Hfree.
    destruct (export_statement doc selectors export n s) as [export'|e] eqn:E.
    + apply (IH (P ++ [n])).
      * by eapply export_leaves.
      * intros p q Hp Hq. apply Hfree.
        -- by rewrite <- app_assoc in Hp.
        -- by apply elem_of_cons; right.
    + intros [= _ ->]. revert E. apply export_no_TypeError.
      intros p Hp. destruct (is_leaf (at_path export p)) eqn:Hl; [|done].
      exfalso. apply (Hfree p n); [|by apply elem_of_cons; left|done].
      apply elem_of_app. left. by apply HP.
Qed.

Lemma exec_leaves_leaf pre p s mid selectors0 export0 w w1 selectors1 export1 :
  exec avail doc (pre ++ ExportStatement p s :: mid) selectors0 export0 w
    = (w1, Ok (selectors1, export1)) →
  leaf_on export1 p.
Proof.
  rewrite exec_app.
  destruct (exec avail doc pre selectors0 export0 w) as [w2 [[selectors2 export2]|]];
    [|done].
  simpl.
  destruct (export_statement doc selectors2 export2 p s) as [export3|] eqn:E;
    [|done].
  intros H. eapply exec_leaf_on; [done|].
  apply export_statement_stored in E as (key & items & _ & Hat).
  exists p. split; [done|]. by rewrite Hat.
Qed.

End PathFacts.

(** C10: when an export statement stores a list at path [p] and a later
    one has a strictly longer path [q] that starts with [p], the list is
    not turned into a mapping: the run raises.  If everything before
    the later export succeeds and its selector resolves, the error is
    the [TypeError] of assigning into the list.  In a script no export
    path of which is a proper prefix of another, that [TypeError] never
    occurs. *)
Theorem longer_path_aborts
    (fromstring : string → result Element) (avail : string → bool)
    (scraper code html : string) (ast : list Statement) (doc : Element)
    (w : World) :
  Peg.parse scraper Grammar.Script = Ok ast →
  fromstring html = Ok doc →
  (∀ pre p s1 mid q s2 post,
     ast = pre ++ ExportStatement p s1 :: mid ++ ExportStatement q s2 :: post →
     proper_prefix p q →
     (∃ w' e, run fromstring avail scraper code html w = (w', Raise e))
     ∧ (∀ w1 selectors1 export1 x,
          exec avail doc (pre ++ ExportStatement p s1 :: mid) ∅ (Dict []) w
            = (w1, Ok (selectors1, export1)) →
          resolve doc selectors1 q s2 = Ok x →
          run fromstring avail scraper code html w = (w1, Raise TypeError)))
  ∧ ((∀ p q, p ∈ export_paths ast → q ∈ export_paths ast → ¬ proper_prefix p q) →
     ∀ w', run fromstring avail scraper code html w ≠ (w', Raise TypeError)).
Proof.
  intros Hparse Hdoc. split.
  - intros pre p s1 mid q s2 post -> Hpq.
    assert (Hsplit : pre ++ ExportStatement p s1 :: mid ++ ExportStatement q s2 :: post
                     = (pre ++ ExportStatement p s1 :: mid)
                         ++ ExportStatement q s2 :: post)
      by (by rewrite <- app_assoc, <- app_comm_cons).
    assert (Hlater : ∀ w1 selectors1 export1,
      exec avail doc (pre ++ ExportStatement p s1 :: mid) ∅ (Dict []) w
        = (w1, Ok (selectors1, export1)) →
      ∃ e, export_statement doc selectors1 export1 q s2 = Raise e
           ∧ run fromstring avail scraper code html w = (w1, Raise e)).
    { intros w1 selectors1 export1 He.
      destruct (export_statement_leaf_on doc selectors1 export1 p q s2) as [e Hx];
        [by eapply exec_leaves_leaf|done|].
      exists e. split; [done|].
      eapply run_exec_Raise; [done..|].
      rewrite Hsplit, exec_app, He. simpl. by rewrite Hx. }
    split.
    + destruct (exec avail doc (pre ++ ExportStatement p s1 :: mid) ∅ (Dict []) w)
        as [w1 [[selectors1 export1]|e]] eqn:He.
      * destruct (Hlater _ _ _ eq_refl) as (e & _ & Hr). eauto.
      * exists w1, e. eapply run_exec_Raise; [done..|].
        by rewrite Hsplit, exec_app, He.
    + intros w1 selectors1 export1 [key items] He Hres.
      destruct (Hlater _ _ _ He) as (e & Hx & Hr). rewrite Hr.
      rewrite export_statement_eq, Hres in Hx.
      by rewrite (insert_at_error _ _ _ _ _ Hx).
  - intros Hfree w' Hr. unfold run in Hr. rewrite Hparse, Hdoc in Hr.
    destruct (exec avail doc ast ∅ (Dict []) w) as [w1 [[selectors1 export1]|e]] eqn:He;
      [done|].
    injection Hr as -> ->. revert He. apply (exec_no_TypeError avail doc ast []).
    + intros p Hl. by destruct p.
    + intros p q Hp Hq. by apply Hfree.
Qed.

Lemma longer_path_aborts_witness :
  let script := lines ["selector s = p -> a"; "export a = s"; "export a.b = s"] in
  run Lxml.fromstring installed script EmptyString paragraph_document fresh
    = (fresh, Raise TypeError)
  ∧ ∀ w', run Lxml.fromstring installed three_line_script EmptyString
            paragraph_document fresh ≠ (w', Raise TypeError).
Proof.
  intros script. split.
  - refine (proj2 (proj1 (longer_path_aborts Lxml.fromstring installed script
                            EmptyString paragraph_document
                            [ SelectorStatement "s" (mkSelector "p" "a");
                              ExportStatement ["a"] "s";
                              ExportStatement ["a"; "b"] "s" ]
                            paragraph_tree fresh _ _)
                     [SelectorStatement "s" (mkSelector "p" "a")] ["a"] "s" []
                     ["a"; "b"] "s" [] eq_refl _)
              fresh _ _ ("b", [anchor "/foo" "a link."]) _ _).
    + vm_compute; reflexivity.
    + vm_compute; reflexivity.
    + split; [by exists ["b"]|discriminate].
    + vm_compute; reflexivity.
    + vm_compute; reflexivity.
  - refine (proj2 (longer_path_aborts Lxml.fromstring installed three_line_script
                     EmptyString paragraph_document _ paragraph_tree fresh
                     parse_three_line_script fromstring_paragraph) _).
    simpl. intros p q Hp Hq [_ Hne].
    apply list_elem_of_singleton in Hp, Hq. congruence.
Defined.

(** ** Serialised nodes *)

(** C5, as stated, fails: in the end-to-end example the input has the
    anchor as [<a href='/foo'>a link.</a>], with single quotes; the value
    stored is a [bytes] object with the attribute in double quotes, a
    text that occurs nowhere in the input document. *)
Lemma serialised_markup_differs :
  let stored := "<a href=" +:+ Lxml.DQUOTE +:+ "/foo" +:+ Lxml.DQUOTE
                +:+ ">a link.</a>" in
  run Lxml.fromstring installed three_line_script EmptyString
    paragraph_document fresh = (mkWorld "en_US" [paragraph_export], Ok PyNone)
  ∧ at_path paragraph_export ["foo"; "paragraph"] = Some (Leaf [Bytes stored])
  ∧ is_substring "<a href='/foo'>a link.</a>" paragraph_document = true
  ∧ is_substring stored paragraph_document = false.
Proof. vm_compute. repeat split; reflexivity. Qed.

(** The text after the end tag of a matched node is serialised with it. *)
Example tostring_includes_tail :
  Lxml.fromstring "<p>See <a>this</a> now.</p>"
    = Ok (mkElement "p" [] "See "
            [mkElement "a" [] "this" [] " now."] EmptyString)
  ∧ map Lxml.tostring
      (Lxml.select "p" "a"
         (mkElement "p" [] "See " [mkElement "a" [] "this" [] " now."] EmptyString))
    = [Bytes "<a>this</a> now."].
Proof. vm_compute. split; reflexivity. Qed.

Lemma markup_assoc (a b c : string) : (a +:+ b) +:+ c = a +:+ (b +:+ c).
Proof.
  induction a as [|x a IH]; [reflexivity|].
  change (String x ((a +:+ b) +:+ c) = String x (a +:+ (b +:+ c))).
  by rewrite IH.
Qed.

Lemma tostring_shape t a x c tl :
  Lxml.tostring (mkElement t a x c tl)
  = Bytes ("<" +:+ t
           +:+ Lxml.concat_strings
                 (map (λ kv, " " +:+ kv.1 +:+ "=" +:+ Lxml.DQUOTE
                             +:+ Lxml.escape Lxml.attr_entity kv.2
                             +:+ Lxml.DQUOTE) a)
           +:+ (if Text.empty x && bool_decide (c = [])
                then "/>"
                else ">" +:+ Lxml.escape Lxml.text_entity x
                     +:+ Lxml.concat_strings (map Lxml.serialize c)
                     +:+ "</" +:+ t +:+ ">")
           +:+ Lxml.escape Lxml.text_entity tl).
Proof.
  unfold Lxml.tostring. f_equal. cbn [Lxml.serialize].
  change (map Lxml.serialize_attr a)
    with (map (λ kv, " " +:+ kv.1 +:+ "=" +:+ Lxml.DQUOTE
                     +:+ Lxml.escape Lxml.attr_entity kv.2 +:+ Lxml.DQUOTE) a).
  destruct x as [|x0 x], c as [|c0 c]; cbn [Text.empty andb bool_decide];
    rewrite ?bool_decide_eq_true_2, ?bool_decide_eq_false_2 by done;
    cbn [andb]; by rewrite !markup_assoc.
Qed.

Lemma escape_text_step c s :
  Lxml.escape Lxml.text_entity (String c s)
  = (if Lxml.is_char 38 c then "&amp;"
     else if Lxml.is_char 60 c then "&lt;"
     else if Lxml.is_char 62 c then "&gt;"
     else if Lxml.is_char 13 c then "&#13;"
     else String c EmptyString)
    +:+ Lxml.escape Lxml.text_entity s.
Proof. destruct c as [[] [] [] [] [] [] [] []]; reflexivity. Qed.

Lemma escape_attr_step c s :
  Lxml.escape Lxml.attr_entity (String c s)
  = (if Lxml.is_char 38 c then "&amp;"
     else if Lxml.is_char 60 c then "&lt;"
     else if Lxml.is_char 62 c then "&gt;"
     else if Lxml.is_char 34 c then "&quot;"
     else if Lxml.is_char 9 c then "&#9;"
     else if Lxml.is_char 10 c then "&#10;"
     else if Lxml.is_char 13 c then "&#13;"
     else String c EmptyString)
    +:+ Lxml.escape Lxml.attr_entity s.
Proof. destruct c as [[] [] [] [] [] [] [] []]; reflexivity. Qed.

(** C5, amended: the value an export statement stores at its path is,
    for the nodes its selector matches and in their order, what
    [etree.tostring] makes of each node: a [bytes] object holding the
    element written anew, not the text of the input.  The start tag
    has every attribute as [ name="value"], the value in double quotes;
    an element without text and children is written [<tag/>]; the text
    after the end tag (the tail) is appended; and of the ASCII
    characters, [&], [<], [>] are written [&amp;], [&lt;], [&gt;] and a
    carriage return [&#13;] in text and tail, in attribute values also
    the double quote [&quot;], tab [&#9;] and line feed [&#10;], and
    every other one is written as it is. *)
Theorem export_stores_serialisation
    (doc : Element) (selectors : gmap string Selector) (export export' : value)
    (name : list string) (s : string) :
  export_statement doc selectors export name s = Ok export' →
  ∃ sel nodes,
    selectors !! s = Some sel
    ∧ Lxml.xpath doc (parent sel) (child sel) = Ok nodes
    ∧ at_path export' name = Some (Leaf (map Lxml.tostring nodes))
    ∧ (∀ t a x c tl, mkElement t a x c tl ∈ nodes →
         Lxml.tostring (mkElement t a x c tl)
         = Bytes ("<" +:+ t
                  +:+ Lxml.concat_strings
                        (map (λ kv, " " +:+ kv.1 +:+ "=" +:+ Lxml.DQUOTE
                                    +:+ Lxml.escape Lxml.attr_entity kv.2
                                    +:+ Lxml.DQUOTE) a)
                  +:+ (if Text.empty x && bool_decide (c = [])
                       then "/>"
                       else ">" +:+ Lxml.escape Lxml.text_entity x
                            +:+ Lxml.concat_strings (map Lxml.serialize c)
                            +:+ "</" +:+ t +:+ ">")
                  +:+ Lxml.escape Lxml.text_entity tl))
    ∧ (∀ c s, Text.code c < 128 →
         Lxml.escape Lxml.text_entity (String c s)
         = (if Lxml.is_char 38 c then "&amp;"
            else if Lxml.is_char 60 c then "&lt;"
            else if Lxml.is_char 62 c then "&gt;"
            else if Lxml.is_char 13 c then "&#13;"
            else String c EmptyString)
           +:+ Lxml.escape Lxml.text_entity s)
    ∧ (∀ c s, Text.code c < 128 →
         Lxml.escape Lxml.attr_entity (String c s)
         = (if Lxml.is_char 38 c then "&amp;"
            else if Lxml.is_char 60 c then "&lt;"
            else if Lxml.is_char 62 c then "&gt;"
            else if Lxml.is_char 34 c then "&quot;"
            else if Lxml.is_char 9 c then "&#9;"
            else if Lxml.is_char 10 c then "&#10;"
            else if Lxml.is_char 13 c then "&#13;"
            else String c EmptyString)
           +:+ Lxml.escape Lxml.attr_entity s).
Proof.
  intros H. apply export_statement_stored in H as (key & items & Hr & Hat).
  unfold resolve in Hr.
  destruct (selectors !! s) as [sel|]; simpl in Hr; [|done].
  destruct (Lxml.xpath doc (parent sel) (child sel)) as [nodes|] eqn:Hx;
    simpl in Hr; [|done].
  destruct (last_item name); simpl in Hr; [|done].
  injection Hr as _ <-. exists sel, nodes.
  split; [done|]. split; [done|]. split; [done|].
  split; [intros; apply tostring_shape|].
  split; intros c0 s0 _; [apply escape_text_step|apply escape_attr_step].
Qed.

Lemma export_stores_serialisation_witness :
  let tree :=
    mkElement "p" [] "See "
      [ mkElement "a" [("href", "/q?a=1&b=2")] "x < y" [] " and > more" ]
      EmptyString in
  ∃ export',
    export_statement tree (<["link" := mkSelector "p" "a"]> ∅)
      (Dict []) ["out"; "link"] "link" = Ok export'
    ∧ at_path export' ["out"; "link"]
      = Some (Leaf [Bytes ("<a href=" +:+ Lxml.DQUOTE +:+ "/q?a=1&amp;b=2"
                           +:+ Lxml.DQUOTE +:+ ">x &lt; y</a> and &gt; more")]).
Proof.
  intros tree.
  set (export' :=
         Dict [("out", Dict [("link",
           Leaf [Bytes ("<a href=" +:+ Lxml.DQUOTE +:+ "/q?a=1&amp;b=2"
                        +:+ Lxml.DQUOTE +:+ ">x &lt; y</a> and &gt; more")])])]).
  exists export'. split; [vm_compute; reflexivity|].
  destruct (export_stores_serialisation tree
              (<["link" := mkSelector "p" "a"]> ∅) (Dict []) export'
              ["out"; "link"] "link")
    as (sel & nodes & Hs & Hx & Hat & _); [vm_compute; reflexivity|].
  vm_compute in Hs. injection Hs as <-.
  vm_compute in Hx. injection Hx as <-. exact Hat.
Defined.

(** ** The end-to-end example *)

Lemma contains_select e doc parent_tag child_tag ch :
  contains e doc →
  Lxml.tag e = parent_tag → ch ∈ Lxml.children e → Lxml.tag ch = child_tag →
  ch ∈ Lxml.select parent_tag child_tag doc.
Proof.
  intros Hc He Hch Htag.
  induction Hc as [t a x c tl tl' ->|t a x c tl ch' Hin _ IH].
  - simpl in *. apply list_elem_of_In, in_flat_map.
    exists ch. split; [by apply list_elem_of_In|].
    apply in_or_app. left. subst. rewrite !String.eqb_refl. by left.
  - simpl. apply list_elem_of_In, in_flat_map.
    exists ch'. split; [by apply list_elem_of_In|].
    apply in_or_app. right. by apply list_elem_of_In.
Qed.

(** C1, as stated, fails.  In the notebook the module-level [scraper]
    is the script of cell 5, and running the three-line script there
    prints a tree with a second key [list] and returns [None]; also when
    [scraper] is the three-line script itself the value returned is
    [None], the tree being printed; and a document that contains the
    paragraph next to another paragraph with an anchor gives a list of
    two. *)
Lemma three_line_script_result_differs :
  run Lxml.fromstring installed scraper three_line_script paragraph_document fresh
    = (mkWorld "en_US"
         [Dict [("foo", Dict [("paragraph", Leaf [anchor "/foo" "a link."]);
                              ("list", Leaf [])])]],
       Ok PyNone)
  ∧ snd (run Lxml.fromstring installed scraper three_line_script
           paragraph_document fresh) ≠ Ok (PyValue paragraph_export)
  ∧ snd (run Lxml.fromstring installed three_line_script three_line_script
           paragraph_document fresh) ≠ Ok (PyValue paragraph_export)
  ∧ run Lxml.fromstring installed three_line_script three_line_script
      ("<div>" +:+ paragraph_document +:+ "<p><a>more</a></p></div>") fresh
    = (mkWorld "en_US"
         [Dict [("foo", Dict [("paragraph",
                               Leaf [anchor "/foo" "a link.";
                                     Bytes "<a>more</a>"])])]],
       Ok PyNone).
Proof. vm_compute. repeat split; congruence. Qed.

(** C1, amended: when the script [run] evaluates is the three-line
    script and the host has the locale [en_US], then for a document
    that contains
    [<p>A paragraph. It contains <a href='/foo'>a link.</a></p>] and in
    which [p -> a] matches one element only, [run] prints exactly the
    tree [{'foo': {'paragraph': [b'<a href="/foo">a link.</a>']}}], and
    it returns [None]. *)
Theorem three_line_script_prints_paragraph
    (fromstring : string → result Element) (avail : string → bool)
    (code html : string) (doc : Element) (w : World) :
  avail "en_US" = true →
  fromstring html = Ok doc →
  contains paragraph_tree doc →
  length (Lxml.select "p" "a" doc) = 1 →
  run fromstring avail three_line_script code html w
  = (mkWorld "en_US" (stdout w ++ [paragraph_export]), Ok PyNone).
Proof.
  intros Havail Hdoc Hin Hone.
  assert (Hsel : Lxml.select "p" "a" doc
                 = [mkElement "a" [("href", "/foo")] "a link." [] EmptyString]).
  { pose proof (contains_select paragraph_tree doc "p" "a"
                  (mkElement "a" [("href", "/foo")] "a link." [] EmptyString)
                  Hin eq_refl) as Hmem.
    destruct (Lxml.select "p" "a" doc) as [|y [|z l]]; simpl in Hone; try done.
    specialize (Hmem ltac:(apply list_elem_of_singleton; reflexivity) eq_refl).
    apply list_elem_of_singleton in Hmem. by rewrite Hmem. }
  unfold run.
  rewrite parse_three_line_script, Hdoc.
  cbn [exec]. unfold setlocale. rewrite Havail.
  rewrite export_statement_eq. unfold resolve.
  rewrite lookup_insert_eq. cbn [mbind result_bind parent child].
  unfold Lxml.xpath.
  change (Lxml.is_name "p" && Lxml.is_name "a") with true. cbv iota.
  rewrite Hsel. reflexivity.
Qed.

Lemma three_line_script_prints_paragraph_witness :
  run Lxml.fromstring installed three_line_script EmptyString
    ("<body><h1>A Heading</h1>" +:+ paragraph_document +:+ "</body>") fresh
    = (mkWorld "en_US" [paragraph_export], Ok PyNone)
  ∧ run Lxml.fromstring installed three_line_script EmptyString
      paragraph_document fresh
    = (mkWorld "en_US" [paragraph_export], Ok PyNone).
Proof.
  split.
  - apply (three_line_script_prints_paragraph Lxml.fromstring installed
             EmptyString _
             (mkElement "body" [] EmptyString
                [ mkElement "h1" [] "A Heading" [] EmptyString; paragraph_tree ]
                EmptyString) fresh).
    + reflexivity.
    + vm_compute. reflexivity.
    + eapply contains_below.
      * apply (list_elem_of_lookup_2 _ 1). reflexivity.
      * by eapply contains_here.
    + reflexivity.
  - apply (three_line_script_prints_paragraph Lxml.fromstring installed
             EmptyString paragraph_document paragraph_tree fresh).
    + reflexivity.
    + vm_compute. reflexivity.
    + by eapply contains_here.
    + reflexivity.
Defined.

(** ** Text *)

Local Arguments String.append !_ _ / : simpl nomatch.

Lemma string_app_assoc (a b c : string) : (a +:+ b) +:+ c = a +:+ (b +:+ c).
Proof. induction a as [|x a IH]; simpl; [done|]. by rewrite IH. Qed.

Lemma string_app_nil_r (a : string) : a +:+ EmptyString = a.
Proof. induction a as [|x a IH]; simpl; [done|]. by rewrite IH. Qed.

Lemma string_length_app (a b : string) :
  String.length (a +:+ b) = String.length a + String.length b.
Proof. induction a as [|x a IH]; simpl; [done|]. by rewrite IH. Qed.

Lemma ink_app (a b : string) : Text.ink (a +:+ b) = Text.ink a +:+ Text.ink b.
Proof.
  unfold Text.ink. induction a as [|x a IH]; simpl; [done|].
  rewrite IH. by destruct (negb (Text.is_space x)).
Qed.

Lemma span_app f s : s = fst (Text.span f s) +:+ snd (Text.span f s).
Proof.
  induction s as [|c s IH]; simpl; [done|].
  destruct (f c); [|done]. destruct (Text.span f s). simpl in *. by f_equal.
Qed.

Lemma span_forallb f s : Text.forallb f (fst (Text.span f s)) = true.
Proof.
  induction s as [|c s IH]; simpl; [done|].
  destruct (f c) eqn:E; [|done]. destruct (Text.span f s). simpl in *.
  by rewrite E.
Qed.

Lemma ink_spaces s : Text.forallb Text.is_space s = true → Text.ink s = EmptyString.
Proof.
  unfold Text.ink. induction s as [|c s IH]; simpl; [done|].
  intros [Hc Hs]%andb_prop. rewrite Hc. simpl. by apply IH.
Qed.

Lemma ink_skip t : Text.ink (Peg.skip t) = Text.ink t.
Proof.
  unfold Peg.skip. rewrite (span_app Text.is_space t) at 2.
  rewrite ink_app, (ink_spaces (fst (Text.span Text.is_space t))); [done|].
  apply span_forallb.
Qed.

Lemma span_length f s :
  String.length s
  = String.length (fst (Text.span f s)) + String.length (snd (Text.span f s)).
Proof. rewrite (span_app f s) at 1. apply string_length_app. Qed.

Lemma skip_length t : String.length (Peg.skip t) ≤ String.length t.
Proof. unfold Peg.skip. rewrite (span_length Text.is_space t). lia. Qed.

Lemma strip_prefix_Some p text t :
  Text.strip_prefix p text = Some t → text = p +:+ t.
Proof.
  revert text. induction p as [|a p IH]; intros [|b' text]; simpl; try done.
  - by intros [= ->].
  - by intros [= ->].
  - destruct (Ascii.eqb_spec a b') as [->|]; [|done].
    intros H. by rewrite (IH _ H).
Qed.

(** ** Grammar elements *)

Lemma reads_lit s : reads (Peg.lit s) (λ _, s).
Proof.
  intros text t [] H. unfold Peg.lit in H.
  destruct (Text.strip_prefix s text) as [t0|] eqn:E; [|done].
  injection H as <-. apply strip_prefix_Some in E as ->.
  rewrite ink_app, ink_skip, string_length_app. split; [done|].
  pose proof (skip_length t0). lia.
Qed.

Lemma consumes_lit s : s ≠ EmptyString → consumes (Peg.lit s).
Proof.
  intros Hs text t [] H. unfold Peg.lit in H.
  destruct (Text.strip_prefix s text) as [t0|] eqn:E; [|done].
  injection H as <-. apply strip_prefix_Some in E as ->.
  rewrite string_length_app. pose proof (skip_length t0).
  destruct s; [done|]. simpl. lia.
Qed.

Lemma reads_word : reads Peg.word (λ w, w).
Proof.
  intros text t w H. unfold Peg.word in H.
  pose proof (span_app Text.is_word_char text) as Ht.
  pose proof (span_length Text.is_word_char text) as Hl.
  destruct (Text.span Text.is_word_char text) as [m t0]. simpl in *.
  destruct m as [|c m]; [done|]. injection H as <- <-.
  rewrite Ht at 1. rewrite ink_app, ink_skip. split; [done|].
  pose proof (skip_length t0). lia.
Qed.

Lemma reads_restline : reads Peg.restline (λ l, l).
Proof.
  intros text t l H. unfold Peg.restline in H.
  pose proof (span_app Text.is_dot text) as Ht.
  pose proof (span_length Text.is_dot text) as Hl.
  destruct (Text.span Text.is_dot text) as [m t0]. simpl in *.
  injection H as <- <-.
  rewrite Ht at 1. rewrite ink_app, ink_skip. split; [done|].
  pose proof (skip_length t0). lia.
Qed.

Lemma seq_Ok {A B} (p : Peg.parser A) (k : A → Peg.parser B) text t b' :
  (p ≫= k) text = (t, Ok b') →
  ∃ a t1, p text = (t1, Ok a) ∧ k a t1 = (t, Ok b').
Proof.
  unfold mbind, Peg.parser_bind, Peg.seq.
  destruct (p text) as [t1 [a|]]; [|done].
  destruct (k a t1) as [t2 [b2|]] eqn:E; [|done].
  intros [= <- <-]. eauto.
Qed.

Lemma pure_Ok {A} (a a' : A) text t :
  (mret a : Peg.parser A) text = (t, Ok a') → t = text ∧ a' = a.
Proof. unfold mret, Peg.parser_ret, Peg.pure. by intros [= <- <-]. Qed.

Lemma choice_Ok {A} (ps : list (Peg.parser A)) text t a :
  Peg.choice ps text = (t, Ok a) → ∃ p, p ∈ ps ∧ p text = (t, Ok a).
Proof.
  induction ps as [|p ps IH]; simpl; [done|].
  destruct (p text) as [t1 [a1|]] eqn:E.
  - intros [= <- <-]. exists p. split; [apply elem_of_cons; by left|done].
  - intros H. destruct (IH H) as (q & Hq & Hqt).
    exists q. split; [apply elem_of_cons; by right|done].
Qed.

Lemma maybe_some_loop_reads {A} (p : Peg.parser A) (r : A → string) fuel :
  reads p r →
  ∀ text t l, Peg.maybe_some_loop fuel p text = (t, Ok l) →
    Text.ink text = Text.ink (Lxml.concat_strings (map r l)) +:+ Text.ink t
    ∧ String.length t ≤ String.length text.
Proof.
  intros Hp. induction fuel as [|fuel IH]; intros text t l; simpl; [done|].
  destruct (p text) as [t1 [a|]] eqn:E.
  - destruct (Peg.maybe_some_loop fuel p t1) as [t2 [l2|]] eqn:E2; [|done].
    intros [= <- <-]. destruct (Hp _ _ _ E) as [Hi Hl].
    destruct (IH _ _ _ E2) as [Hi2 Hl2]. simpl.
    rewrite Hi, Hi2, ink_app, string_app_assoc. split; [done|lia].
  - intros [= <- <-]. simpl. split; [done|lia].
Qed.

Lemma maybe_some_reads {A} (p : Peg.parser A) (r : A → string) :
  reads p r → reads (Peg.maybe_some p) (λ l, Lxml.concat_strings (map r l)).
Proof. intros Hp text t l. by apply maybe_some_loop_reads. Qed.

(** A repetition of an element that consumes ends before its fuel does. *)
Lemma maybe_some_loop_total {A} (p : Peg.parser A) fuel :
  consumes p →
  ∀ text, String.length text < fuel →
    ∃ t l, Peg.maybe_some_loop fuel p text = (t, Ok l).
Proof.
  intros Hp. induction fuel as [|fuel IH]; intros text Hlen; [lia|]. simpl.
  destruct (p text) as [t1 [a|]] eqn:E; [|eauto].
  specialize (Hp _ _ _ E).
  destruct (IH t1) as (t2 & l & ->); [lia|]. eauto.
Qed.

(** ** The statements of the grammar *)

Lemma callable_Ok text t u :
  Peg.blank text = (t, Ok u) → t = text.
Proof. unfold Peg.blank. by intros [= <-]. Qed.

Lemma endl_Ok text t u :
  Peg.endl text = (t, Ok u) → t = text.
Proof. unfold Peg.endl. by intros [= <-]. Qed.

Ltac peg_inv H :=
  repeat first
    [ apply seq_Ok in H as (? & ? & ? & H)
    | apply pure_Ok in H as [-> ->] ].

Ltac peg_facts :=
  repeat match goal with
    | H : Peg.blank _ = (_, Ok _) |- _ => apply callable_Ok in H as ->
    | H : Peg.endl _ = (_, Ok _) |- _ => apply endl_Ok in H as ->
    | H : Peg.lit ?s _ = (_, Ok _) |- _ =>
        let Hc := fresh "Hc" in
        assert (Hc := consumes_lit s ltac:(discriminate) _ _ _ H);
        destruct (reads_lit s _ _ _ H) as [? _]; clear H
    | H : Peg.word _ = (_, Ok _) |- _ =>
        destruct (reads_word _ _ _ H) as [? ?]; clear H
    | H : Peg.restline _ = (_, Ok _) |- _ =>
        destruct (reads_restline _ _ _ H) as [? ?]; clear H
    end.

Ltac peg_ink :=
  repeat match goal with
    | H : Text.ink _ = _ |- _ => rewrite H; clear H
    end;
  rewrite ?ink_app, ?string_app_assoc.

Lemma reads_dot_word :
  reads (Peg.lit "." ;; Peg.blank ;; Peg.word) (λ w, "." +:+ w).
Proof.
  intros text t w H. peg_inv H. peg_facts. split; [|lia]. by peg_ink.
Qed.

Lemma join_dots x xs :
  Text.join "." (x :: xs)
  = x +:+ Lxml.concat_strings (map (λ w, "." +:+ w) xs).
Proof.
  revert x. induction xs as [|y xs IH]; intros x.
  - simpl. by rewrite string_app_nil_r.
  - change (Text.join "." (x :: y :: xs))
      with (x +:+ "." +:+ Text.join "." (y :: xs)).
    rewrite IH. simpl. by rewrite ?string_app_assoc.
Qed.

Lemma reads_DottedName : reads Grammar.DottedName_grammar (Text.join ".").
Proof.
  intros text t l H. unfold Grammar.DottedName_grammar, Peg.csl in H.
  peg_inv H.
  match goal with
  | H : Peg.maybe_some _ _ = _ |- _ =>
      destruct (maybe_some_reads _ _ reads_dot_word _ _ _ H) as [? ?]; clear H
  end.
  peg_facts. rewrite join_dots. split; [|lia]. by peg_ink.
Qed.

(** The repetition inside [csl] always ends: its element takes the
    separator. *)
Lemma DottedName_ends text :
  snd (Grammar.DottedName_grammar text) ≠ Raise Exhausted.
Proof.
  unfold Grammar.DottedName_grammar, Peg.csl, mbind, Peg.parser_bind, Peg.seq.
  destruct (Peg.word text) as [t1 [x|e]] eqn:Hw.
  - destruct (maybe_some_loop_total (Peg.lit "." ;; Peg.blank ;; Peg.word)
                (S (String.length t1))) with (text := t1) as (t2 & xs & H); [|lia|].
    { intros t t' w H. peg_inv H. peg_facts. lia. }
    unfold Peg.maybe_some, mbind, Peg.parser_bind, Peg.seq in *.
    by rewrite H.
  - unfold Peg.word in Hw.
    destruct (Text.span Text.is_word_char text) as [[|c m] t0]; simpl.
    + by injection Hw as _ <-.
    + done.
Qed.

Lemma reads_Selector :
  reads Grammar.Selector_grammar (λ s, parent s +:+ "->" +:+ child s).
Proof.
  intros text t s H. unfold Grammar.Selector_grammar, Peg.attr in H.
  peg_inv H. peg_facts. split; [|lia]. cbn [render]. by peg_ink.
Qed.

Lemma takes_Comment : takes Grammar.Comment_grammar.
Proof.
  intros text t s H. unfold Grammar.Comment_grammar, Peg.attr in H.
  peg_inv H. peg_facts. split; [|lia]. cbn [render]. by peg_ink.
Qed.

Lemma takes_LocaleStatement : takes Grammar.LocaleStatement_grammar.
Proof.
  intros text t s H. unfold Grammar.LocaleStatement_grammar, Peg.attr in H.
  peg_inv H. peg_facts. split; [|lia]. cbn [render]. by peg_ink.
Qed.

Lemma takes_SelectorStatement : takes Grammar.SelectorStatement_grammar.
Proof.
  intros text t s H. unfold Grammar.SelectorStatement_grammar, Peg.attr in H.
  peg_inv H.
  match goal with
  | H : Grammar.Selector_grammar _ = _ |- _ =>
      destruct (reads_Selector _ _ _ H) as [? ?]; clear H
  end.
  peg_facts. split; [|lia]. cbn [render]. by peg_ink.
Qed.

Lemma takes_ExportStatement : takes Grammar.ExportStatement_grammar.
Proof.
  intros text t s H. unfold Grammar.ExportStatement_grammar, Peg.attr in H.
  peg_inv H.
  match goal with
  | H : Grammar.DottedName_grammar _ = _ |- _ =>
      destruct (reads_DottedName _ _ _ H) as [? ?]; clear H
  end.
  peg_facts. split; [|lia]. cbn [render]. by peg_ink.
Qed.

Lemma takes_statement : takes Grammar.statement.
Proof.
  intros text t s H. unfold Grammar.statement in H.
  apply choice_Ok in H as (p & Hp & H).
  repeat (apply elem_of_cons in Hp as [->|Hp]);
    [ by apply takes_Comment | by apply takes_ExportStatement
    | by apply takes_LocaleStatement | by apply takes_SelectorStatement
    | by apply elem_of_nil in Hp ].
Qed.

Lemma Script_reads text :
  ∃ t ast, Grammar.Script text = (t, Ok ast)
           ∧ Text.ink text = Text.ink (render_all ast) +:+ Text.ink t.
Proof.
  unfold Grammar.Script, Peg.maybe_some.
  destruct (maybe_some_loop_total Grammar.statement (S (String.length text)))
    with (text := text) as (t & ast & H); [|lia|].
  { intros ? ? ? Hs. by apply takes_statement in Hs as [_ ?]. }
  exists t, ast. split; [done|].
  eapply (maybe_some_loop_reads Grammar.statement render); [|done].
  intros ? ? ? Hs. apply takes_statement in Hs as [? ?]. split; [done|lia].
Qed.

(** The repetition stops where its element fails. *)
Lemma maybe_some_loop_stops {A} (p : Peg.parser A) fuel text t l :
  Peg.maybe_some_loop fuel p text = (t, Ok l) → ∃ e, snd (p t) = Raise e.
Proof.
  revert text t l. induction fuel as [|fuel IH]; intros text t l; simpl; [done|].
  destruct (p text) as [t1 [a|e]] eqn:E.
  - destruct (Peg.maybe_some_loop fuel p t1) as [t2 [l2|]] eqn:E2; [|done].
    intros [= <- <-]. eauto.
  - intros [= <- <-]. rewrite E. eauto.
Qed.

(** ** Parsing a script *)

(** C9, as stated, fails.  The script is not read line by line: a
    statement may be spread over lines none of which is a statement by
    itself, and a line may hold two statements, which is none of the
    four shapes either; both texts parse. *)
Lemma unrecognised_lines_accepted :
  let text1 := "locale en_US selector a = p -> q" in
  let text2 := lines ["selector a ="; "p -> q"] in
  (lines_of text1 = [text1]
   ∧ is_blank text1 = false
   ∧ is_statement_line text1 = false
   ∧ Peg.parse text1 Grammar.Script
     = Ok [LocaleStatement "en_US"; SelectorStatement "a" (mkSelector "p" "q")])
  ∧ (lines_of text2 = ["selector a ="; "p -> q"]
     ∧ is_blank "selector a =" = false
     ∧ is_statement_line "selector a =" = false
     ∧ is_statement_line "p -> q" = false
     ∧ Peg.parse text2 Grammar.Script
       = Ok [SelectorStatement "a" (mkSelector "p" "q")]).
Proof. vm_compute. repeat split; reflexivity. Qed.

(** C9, amended: statements are separated by white space of any kind,
    not by line breaks.  For every script text of ASCII characters that
    is not, white space apart, a sequence of statements of the four
    shapes written one after the other, parsing fails with a syntax
    error: parsing either fails so, producing no statement sequence
    (exactly when text is left at which none of the four shapes
    matches), or it produces a statement sequence that accounts for
    every character of the text that is not white space, in order, so
    that no text is skipped. *)
Theorem parse_accounts_for_all_text (text : string) :
  is_ascii text = true →
  (∃ ast, Peg.parse text Grammar.Script = Ok ast
          ∧ Text.ink text = Text.ink (render_all ast))
  ∨ (Peg.parse text Grammar.Script = Raise SyntaxError
     ∧ ∃ ast left e,
         Grammar.Script (Peg.skip text) = (left, Ok ast)
         ∧ left ≠ EmptyString
         ∧ snd (Grammar.statement left) = Raise e).
Proof.
  intros _. unfold Peg.parse.
  destruct (Script_reads (Peg.skip text)) as (t & ast & H & Hi).
  rewrite H. destruct t as [|c t]; simpl.
  - left. exists ast. split; [done|].
    rewrite <- ink_skip, Hi. apply string_app_nil_r.
  - right. split; [done|].
    destruct (maybe_some_loop_stops _ _ _ _ _ H) as [e He].
    by exists ast, (String c t), e.
Qed.

Lemma parse_accounts_for_all_text_witness :
  Peg.parse (lines ["locale en_US"; "this is no statement"]) Grammar.Script
  = Raise SyntaxError.
Proof.
  destruct (parse_accounts_for_all_text
              (lines ["locale en_US"; "this is no statement"]) eq_refl)
    as [(ast & H & _)|[H _]].
  - vm_compute in H. discriminate H.
  - exact H.
Defined.

(** ** Selectors and XPath *)

Lemma Element_induction (P : Element → Prop) :
  (∀ t a x c tl, Forall P c → P (mkElement t a x c tl)) → ∀ e, P e.
Proof.
  intros H.
  refine (fix IH (e : Element) : P e :=
            match e with
            | mkElement t a x c tl =>
                H t a x c tl
                  ((fix IHs (l : list Element) : Forall P l :=
                      match l with
                      | [] => List.Forall_nil P
                      | e' :: l' => List.Forall_cons P e' l' (IH e') (IHs l')
                      end) c)
            end).
Qed.

Lemma select_children parent child e0 cs :
  Forall (λ ch, Lxml.select parent child ch
                = map snd (List.filter (child_of parent child) (descendants ch)))
         cs →
  flat_map
    (λ c, (if String.eqb (Lxml.tag e0) parent && String.eqb (Lxml.tag c) child
           then [c] else [])
          ++ Lxml.select parent child c) cs
  = map snd (List.filter (child_of parent child)
               (flat_map (λ c, (e0, c) :: descendants c) cs)).
Proof.
  induction 1 as [|ch cs Hch _ IH]; [done|].
  cbn [flat_map]. rewrite List.filter_app, map_app, <- IH.
  cbn [List.filter]. unfold child_of at 1. cbn [fst snd].
  destruct (String.eqb (Lxml.tag e0) parent && String.eqb (Lxml.tag ch) child);
    cbn [map app]; by rewrite Hch.
Qed.

Lemma select_descendants parent child e :
  Lxml.select parent child e
  = map snd (List.filter (child_of parent child) (descendants e)).
Proof.
  induction e as [t a x c tl IH] using Element_induction.
  exact (select_children parent child (mkElement t a x c tl) c IH).
Qed.

(** C2, as stated, fails: in [<p><b><a/></b></p>] the anchor has the
    paragraph on its ancestor chain without being its child, and
    [p -> a] selects nothing. *)
Lemma xpath_takes_children_only :
  Lxml.fromstring nested_document = Ok nested_tree
  ∧ Lxml.xpath nested_tree "p" "a" = Ok []
  ∧ spec_resolve "p" "a" nested_tree
    = [mkElement "a" [] EmptyString [] EmptyString]
  ∧ Lxml.xpath nested_tree "p" "a" ≠ Ok (spec_resolve "p" "a" nested_tree).
Proof. vm_compute. repeat split; congruence. Qed.

(** C2, amended: for a selector [parent -> child] whose two words are
    names, and every document, resolving the selector returns exactly
    the elements whose tag is [child] and whose parent element has the
    tag [parent] (direct children only), in document order. *)
Theorem xpath_selects_children (doc : Element) (parent child : string) :
  Lxml.is_name parent = true →
  Lxml.is_name child = true →
  Lxml.xpath doc parent child
  = Ok (map snd (List.filter (child_of parent child) (descendants doc))).
Proof.
  intros Hp Hc. unfold Lxml.xpath. rewrite Hp, Hc. simpl.
  by rewrite select_descendants.
Qed.

Lemma xpath_selects_children_witness :
  Lxml.xpath paragraph_tree "p" "a"
  = Ok [mkElement "a" [("href", "/foo")] "a link." [] EmptyString].
Proof.
  exact (xpath_selects_children paragraph_tree "p" "a" eq_refl eq_refl).
Defined.

(** * Further properties of the interpreter *)

(** ** Statements that do not matter to one another *)

Lemma exec_strip_comments avail doc ast selectors export w :
  exec avail doc (strip_comments ast) selectors export w
  = exec avail doc ast selectors export w.
Proof.
  revert selectors export w.
  induction ast as [|stmt ast IH]; intros selectors export w; [done|].
  destruct stmt as [t|l|n s|n s]; simpl.
  - apply IH.
  - unfold setlocale. destruct (avail l); [apply IH|done].
  - apply IH.
  - destruct (export_statement doc selectors export n s); [apply IH|done].
Qed.

(** X1: comments have no effect.  Two scripts whose statement sequences
    differ in their comments only give the same result, print the same
    and leave the same locale. *)
Theorem comments_do_not_matter
    (fromstring : string → result Element) (avail : string → bool)
    (scraper1 scraper2 code html : string) (ast1 ast2 : list Statement)
    (w : World) :
  Peg.parse scraper1 Grammar.Script = Ok ast1 →
  Peg.parse scraper2 Grammar.Script = Ok ast2 →
  strip_comments ast1 = strip_comments ast2 →
  run fromstring avail scraper1 code html w
  = run fromstring avail scraper2 code html w.
Proof.
  intros H1 H2 Heq. unfold run. rewrite H1, H2.
  destruct (fromstring html) as [doc|]; [|done].
  by rewrite <- (exec_strip_comments avail doc ast1),
             <- (exec_strip_comments avail doc ast2), Heq.
Qed.

Lemma comments_do_not_matter_witness :
  run Lxml.fromstring installed scraper EmptyString doc fresh
  = run Lxml.fromstring installed
      (lines ["locale en_US"; "selector paragraph = p -> a";
              "selector list_items = li -> a";
              "export foo.paragraph = paragraph";
              "export foo.list = list_items"]) EmptyString doc fresh.
Proof.
  eapply comments_do_not_matter; vm_compute; reflexivity.
Defined.

Lemma resolve_insert_ne doc selectors a sel name s :
  s ≠ a →
  resolve doc (<[a := sel]> selectors) name s = resolve doc selectors name s.
Proof. intros Hne. unfold resolve. by rewrite lookup_insert_ne. Qed.

(** X2: a selector declaration can be moved past any statement that
    neither declares nor exports the same name, without changing what
    the interpreter does: result, final locals and process state. *)
Theorem declaration_moves_past
    (avail : string → bool) (doc : Element) (pre post : list Statement)
    (a : string) (sel : Selector) (stmt : Statement)
    (selectors : gmap string Selector) (export : value) (w : World) :
  independent a stmt = true →
  exec avail doc (pre ++ SelectorStatement a sel :: stmt :: post)
    selectors export w
  = exec avail doc (pre ++ stmt :: SelectorStatement a sel :: post)
      selectors export w.
Proof.
  intros Hind. rewrite !exec_app.
  destruct (exec avail doc pre selectors export w) as [w1 [[selectors1 export1]|]];
    [|done].
  destruct stmt as [t|l|n s|n s]; simpl in *.
  - done.
  - unfold setlocale. by destruct (avail l).
  - apply negb_true_iff, String.eqb_neq in Hind.
    by rewrite insert_insert_ne.
  - apply negb_true_iff, String.eqb_neq in Hind.
    rewrite !export_statement_eq, resolve_insert_ne by done.
    by destruct (resolve doc selectors1 n s) as [[key items]|];
      [destruct (insert_at export1 (but_last n) key items)|].
Qed.

Lemma declaration_moves_past_witness :
  exec installed paragraph_tree
    ([] ++ [ SelectorStatement "a" (mkSelector "p" "a");
             SelectorStatement "c" (mkSelector "li" "a");
             ExportStatement ["out"] "a" ]) ∅ (Dict []) fresh
  = exec installed paragraph_tree
      ([] ++ [ SelectorStatement "c" (mkSelector "li" "a");
               SelectorStatement "a" (mkSelector "p" "a");
               ExportStatement ["out"] "a" ]) ∅ (Dict []) fresh.
Proof.
  exact (declaration_moves_past installed paragraph_tree []
           [ExportStatement ["out"] "a"] "a" (mkSelector "p" "a")
           (SelectorStatement "c" (mkSelector "li" "a")) ∅ (Dict []) fresh
           eq_refl).
Defined.

(** ** Exporting twice to one path *)

Lemma set_set {V} (d : list (string * V)) k v1 v2 :
  PyDict.set (PyDict.set d k v1) k v2 = PyDict.set d k v2.
Proof.
  induction d as [|[k' v'] d IH]; simpl.
  - by rewrite String.eqb_refl.
  - destruct (String.eqb k' k) eqn:E; simpl; rewrite E; [done|]. by rewrite IH.
Qed.

Lemma contains_set {V} (d : list (string * V)) k v :
  PyDict.contains (PyDict.set d k v) k = true.
Proof. unfold PyDict.contains. by rewrite get_set_eq. Qed.

Lemma insert_at_twice exp names key items1 items2 exp1 exp2 :
  insert_at exp names key items1 = Ok exp1 →
  insert_at exp1 names key items2 = Ok exp2 →
  insert_at exp names key items2 = Ok exp2.
Proof.
  unfold insert_at. revert exp exp1 exp2.
  induction names as [|name names IH]; intros exp exp1 exp2 H1 H2.
  - apply store_Ok in H1 as (d & -> & ->). simpl in *.
    injection H2 as <-. by rewrite set_set.
  - simpl in H1. destruct exp as [|d]; [done|].
    destruct (descend_step d name) as (sub & Hsub & _).
    simpl. rewrite Hsub in *.
    destruct (descend sub names _) as [sub1|] eqn:E1; simpl in H1; [|done].
    injection H1 as <-. simpl in H2.
    rewrite contains_set, get_set_eq in H2.
    destruct (descend sub1 names _) as [sub2|] eqn:E2; simpl in H2; [|done].
    injection H2 as <-. rewrite (IH _ _ _ E1 E2). simpl.
    by rewrite set_set.
Qed.

(** X3: an export to a path that an earlier export wrote overwrites it
    without a trace: when both succeed, the tree is the one the later
    export alone would have built. *)
Theorem reexport_overwrites
    (doc : Element) (selectors1 selectors2 : gmap string Selector)
    (export export1 export2 : value) (name : list string) (s1 s2 : string) :
  export_statement doc selectors1 export name s1 = Ok export1 →
  export_statement doc selectors2 export1 name s2 = Ok export2 →
  export_statement doc selectors2 export name s2 = Ok export2.
Proof.
  intros H1 H2.
  apply export_statement_Ok in H1 as (key1 & items1 & Hr1 & Hn1 & Hi1).
  apply export_statement_Ok in H2 as (key2 & items2 & Hr2 & Hn2 & Hi2).
  rewrite export_statement_eq, Hr2.
  assert (key1 = key2) as ->.
  { rewrite Hn2 in Hn1 at 1. by apply app_inj_tail in Hn1 as [_ ->]. }
  by eapply insert_at_twice.
Qed.

Lemma reexport_overwrites_witness :
  let selectors : gmap string Selector :=
    <["t" := mkSelector "p" "a"]> (<["s" := mkSelector "li" "a"]> ∅) in
  export_statement paragraph_tree selectors (Dict []) ["foo"; "out"] "t"
  = Ok (Dict [("foo", Dict [("out", Leaf [anchor "/foo" "a link."])])]).
Proof.
  intros selectors.
  refine (reexport_overwrites paragraph_tree selectors selectors (Dict [])
            (Dict [("foo", Dict [("out", Leaf [])])]) _ ["foo"; "out"] "s" "t" _ _);
    vm_compute; reflexivity.
Defined.

(** ** The shape of the tree *)

Lemma on_paths_export doc selectors export name s export' P :
  on_paths P export →
  export_statement doc selectors export name s = Ok export' →
  on_paths (P ++ [name]) export'.
Proof.
  intros HP H p v Hne Hat.
  destruct (decide (name `prefix_of` p)) as [[k ->]|Hnp].
  - apply export_statement_stored in H as (key & items & _ & Hs).
    rewrite at_path_app, Hs in Hat. simpl in Hat.
    destruct k as [|k0 k]; [|done]. injection Hat as <-.
    exists name. rewrite app_nil_r.
    split; [apply elem_of_app; right; by apply list_elem_of_singleton|done].
  - destruct (decide (p `prefix_of` name)) as [Hpn|Hpn].
    + assert (Hpp : proper_prefix p name).
      { split; [done|]. intros ->. by apply Hnp. }
      destruct (export_statement_through _ _ _ _ _ _ _ H Hpp) as [_ [d Hd]].
      rewrite Hd in Hat. injection Hat as <-.
      exists name.
      split; [apply elem_of_app; right; by apply list_elem_of_singleton|done].
    + rewrite (export_statement_frame _ _ _ _ _ _ p H) in Hat
        by (intros [?|?]; done).
      destruct (HP p v Hne Hat) as (q & Hq & Hpq & Hl).
      exists q. split; [apply elem_of_app; by left|done].
Qed.

Lemma on_paths_exec avail doc ast selectors export w w' selectors' export' P :
  on_paths P export →
  exec avail doc ast selectors export w = (w', Ok (selectors', export')) →
  on_paths (P ++ export_paths ast) export'.
Proof.
  revert selectors export w P.
  induction ast as [|stmt ast IH]; intros selectors export w P HP; simpl.
  - intros [= _ _ <-]. by rewrite app_nil_r.
  - destruct stmt as [t|l|n s|n s]; try (by apply IH).
    + unfold setlocale. destruct (avail l); [by apply IH|done].
    + destruct (export_statement doc selectors export n s) as [export1|] eqn:E;
        [|done].
      intros H.
      replace (P ++ n :: export_paths ast) with ((P ++ [n]) ++ export_paths ast)
        by (by rewrite <- app_assoc).
      eapply IH; [|done]. by eapply on_paths_export.
Qed.

(** X4: the tree a run prints holds nothing but what the export
    statements of the script name: every key sequence found in it is the
    beginning of the dotted path of some export statement, and a list of
    nodes is found only at the end of such a path. *)
Theorem tree_follows_export_paths
    (fromstring : string → result Element) (avail : string → bool)
    (scraper code html : string) (ast : list Statement) (w w' : World)
    (r : pyobj) :
  Peg.parse scraper Grammar.Script = Ok ast →
  run fromstring avail scraper code html w = (w', Ok r) →
  ∃ tree, stdout w' = stdout w ++ [tree] ∧ on_paths (export_paths ast) tree.
Proof.
  intros Hp Hr.
  apply run_Ok in Hr as (ast' & doc & w1 & selectors & export & Hp' & _ & He & -> & _).
  rewrite Hp in Hp'. injection Hp' as <-.
  exists export. split.
  - simpl. by rewrite (exec_stdout _ _ _ _ _ _ _ _ He).
  - apply (on_paths_exec _ _ _ _ _ _ _ _ _ [] ) in He; [done|].
    intros p v Hne Hat. by destruct p.
Qed.

Lemma tree_follows_export_paths_witness :
  ∃ tree,
    stdout (mkWorld "en_US" [paragraph_export]) = stdout fresh ++ [tree]
    ∧ on_paths
        (export_paths
           [ LocaleStatement "en_US";
             SelectorStatement "paragraph" (mkSelector "p" "a");
             ExportStatement ["foo"; "paragraph"] "paragraph" ]) tree.
Proof.
  refine (tree_follows_export_paths Lxml.fromstring installed three_line_script
            EmptyString paragraph_document _ fresh _ PyNone
            parse_three_line_script _).
  vm_compute. reflexivity.
Defined.

(** ** What a later statement can change *)

Lemma exec_keeps_leaf avail doc ast selectors export w w' selectors' export'
    name items :
  at_path export name = Some (Leaf items) →
  (∀ q, q ∈ export_paths ast → ¬ q `prefix_of` name) →
  exec avail doc ast selectors export w = (w', Ok (selectors', export')) →
  at_path export' name = Some (Leaf items).
Proof.
  revert selectors export w.
  induction ast as [|stmt ast IH]; intros selectors export w Hat Hq; simpl.
  - by intros [= _ _ <-].
  - destruct stmt as [t|l|n s|n s]; try (by apply IH).
    + unfold setlocale. destruct (avail l); [by apply IH|done].
    + destruct (export_statement doc selectors export n s) as [export1|] eqn:E;
        [|done].
      simpl in Hq. apply IH.
      * rewrite (export_statement_frame _ _ _ _ _ _ name E); [done|].
        intros [Hn|Hn].
        -- apply (Hq n); [apply elem_of_cons; by left|done].
        -- assert (Hpp : proper_prefix name n).
           { split; [done|]. intros ->.
             apply (Hq n); [apply elem_of_cons; by left|done]. }
           destruct (export_statement_through _ _ _ _ _ _ _ E Hpp) as [Hl _].
           by rewrite Hat in Hl.
      * intros q Hin. apply Hq. apply elem_of_cons. by right.
Qed.

(** X5: what an export statement stores is fixed when it runs.  In a
    run of the statement loop that ends without error, the list at the
    path of an export statement is the serialised node set of the
    selector its name was bound to at that moment, whatever is declared
    afterwards, provided no later export has a path that is a prefix of
    (or equal to) this one. *)
Theorem export_is_fixed_when_it_runs
    (avail : string → bool) (doc : Element) (pre post : list Statement)
    (name : list string) (s : string) (selectors0 : gmap string Selector)
    (export0 : value) (w w' : World) (selectors : gmap string Selector)
    (export : value) :
  exec avail doc (pre ++ ExportStatement name s :: post) selectors0 export0 w
    = (w', Ok (selectors, export)) →
  (∀ q, q ∈ export_paths post → ¬ q `prefix_of` name) →
  ∃ sel nodes,
    match declared_last s pre with
    | Some x => Some x
    | None => selectors0 !! s
    end = Some sel
    ∧ Lxml.xpath doc (parent sel) (child sel) = Ok nodes
    ∧ at_path export name = Some (Leaf (map Lxml.tostring nodes)).
Proof.
  intros He Hq. rewrite exec_app in He.
  destruct (exec avail doc pre selectors0 export0 w)
    as [w1 [[selectors1 export1]|]] eqn:E; [|done].
  pose proof (exec_selectors _ _ _ _ _ _ _ _ _ s E) as Hs.
  simpl in He.
  destruct (export_statement doc selectors1 export1 name s) as [export2|] eqn:Ex;
    [|done].
  apply export_statement_stored in Ex as (key & items & Hr & Hat).
  unfold resolve in Hr.
  destruct (selectors1 !! s) as [sel|]; simpl in Hr; [|done].
  destruct (Lxml.xpath doc (parent sel) (child sel)) as [nodes|] eqn:Hx;
    simpl in Hr; [|done].
  destruct (last_item name); simpl in Hr; [|done].
  injection Hr as _ <-.
  exists sel, nodes. split; [done|]. split; [done|].
  by eapply exec_keeps_leaf.
Qed.

Lemma export_is_fixed_when_it_runs_witness :
  ∃ selectors export,
    exec installed paragraph_tree
      ([SelectorStatement "a" (mkSelector "p" "a")]
         ++ ExportStatement ["out"; "first"] "a"
         :: [ SelectorStatement "a" (mkSelector "li" "a");
              ExportStatement ["out"; "second"] "a" ]) ∅ (Dict []) fresh
    = (fresh, Ok (selectors, export))
    ∧ at_path export ["out"; "first"] = Some (Leaf [anchor "/foo" "a link."]).
Proof.
  eexists _, _. split; [vm_compute; reflexivity|].
  edestruct (export_is_fixed_when_it_runs installed paragraph_tree
               [SelectorStatement "a" (mkSelector "p" "a")]
               [ SelectorStatement "a" (mkSelector "li" "a");
                 ExportStatement ["out"; "second"] "a" ]
               ["out"; "first"] "a" ∅ (Dict []) fresh)
    as (sel & nodes & Hs & Hx & Hat); [vm_compute; reflexivity| |].
  - simpl. intros q Hin [k Hk]. apply list_elem_of_singleton in Hin as ->.
    discriminate.
  - vm_compute in Hs. injection Hs as <-.
    vm_compute in Hx. injection Hx as <-. exact Hat.
Defined.

(** ** Runs that fail *)

Lemma exec_one_Raise avail doc stmt selectors export w w' e :
  exec avail doc [stmt] selectors export w = (w', Raise e) → w' = w.
Proof.
  destruct stmt as [t|l|n s|n s]; simpl; try done.
  - unfold setlocale. destruct (avail l); [done|]. by intros [= <- _].
  - destruct (export_statement doc selectors export n s); [done|].
    by intros [= <- _].
Qed.

(** X6: a run that fails at a statement stops there, prints nothing and
    undoes nothing: the error of that statement is the error of the run,
    and the process locale is left as the statements before it set it. *)
Theorem failure_stops_without_rollback
    (fromstring : string → result Element) (avail : string → bool)
    (scraper code html : string) (doc : Element)
    (pre post : list Statement) (stmt : Statement)
    (w w1 w2 : World) (selectors1 : gmap string Selector) (export1 : value)
    (e : exn) :
  Peg.parse scraper Grammar.Script = Ok (pre ++ stmt :: post) →
  fromstring html = Ok doc →
  exec avail doc pre ∅ (Dict []) w = (w1, Ok (selectors1, export1)) →
  exec avail doc [stmt] selectors1 export1 w1 = (w2, Raise e) →
  run fromstring avail scraper code html w = (w2, Raise e)
  ∧ stdout w2 = stdout w
  ∧ LC_ALL w2 = default (LC_ALL w) (last_locale pre).
Proof.
  intros Hp Hdoc Hpre Hstmt.
  assert (Hrun : run fromstring avail scraper code html w = (w2, Raise e)).
  { eapply run_exec_Raise; [done..|].
    rewrite exec_app, Hpre.
    change (stmt :: post) with ([stmt] ++ post). by rewrite exec_app, Hstmt. }
  split; [done|]. split.
  - by eapply run_Raise_silent.
  - apply exec_one_Raise in Hstmt as ->. by eapply exec_locale.
Qed.

Lemma failure_stops_without_rollback_witness :
  let script := lines ["locale en_US"; "export out = nothing"; "locale C"] in
  run Lxml.fromstring installed script EmptyString paragraph_document fresh
    = (mkWorld "en_US" [], Raise (KeyError "nothing")).
Proof.
  intros script.
  refine (proj1 (failure_stops_without_rollback Lxml.fromstring installed script
                   EmptyString paragraph_document paragraph_tree
                   [LocaleStatement "en_US"] [LocaleStatement "C"]
                   (ExportStatement ["out"] "nothing")
                   fresh (mkWorld "en_US" []) (mkWorld "en_US" []) ∅ (Dict [])
                   (KeyError "nothing") _ _ _ _));
    vm_compute; reflexivity.
Defined.

(** X7: a locale the host does not have makes the run fail with
    [locale.Error] at that statement: the statements after it are not
    executed, and when the statements before it succeed the process
    locale stays as they set it. *)
Theorem unavailable_locale_aborts
    (fromstring : string → result Element) (avail : string → bool)
    (scraper code html : string) (doc : Element)
    (pre post : list Statement) (l : string) (w : World) :
  Peg.parse scraper Grammar.Script = Ok (pre ++ LocaleStatement l :: post) →
  fromstring html = Ok doc →
  avail l = false →
  (∃ w' e, run fromstring avail scraper code html w = (w', Raise e))
  ∧ (∀ w1 selectors1 export1,
       exec avail doc pre ∅ (Dict []) w = (w1, Ok (selectors1, export1)) →
       run fromstring avail scraper code html w = (w1, Raise LocaleError)).
Proof.
  intros Hp Hdoc Hl.
  assert (Hstep : ∀ w1 selectors1 export1,
    exec avail doc pre ∅ (Dict []) w = (w1, Ok (selectors1, export1)) →
    run fromstring avail scraper code html w = (w1, Raise LocaleError)).
  { intros w1 selectors1 export1 He. eapply run_exec_Raise; [done..|].
    rewrite exec_app, He. simpl. unfold setlocale. by rewrite Hl. }
  split; [|done].
  destruct (exec avail doc pre ∅ (Dict []) w) as [w1 [[selectors1 export1]|e]] eqn:E.
  - eauto.
  - exists w1, e. eapply run_exec_Raise; [done..|]. by rewrite exec_app, E.
Qed.

Lemma unavailable_locale_aborts_witness :
  let script := lines ["locale en_US"; "locale xx_XX"; "locale C"] in
  run Lxml.fromstring installed script EmptyString paragraph_document fresh
    = (mkWorld "en_US" [], Raise LocaleError).
Proof.
  intros script.
  refine (proj2 (unavailable_locale_aborts Lxml.fromstring installed script
                   EmptyString paragraph_document paragraph_tree
                   [LocaleStatement "en_US"] [LocaleStatement "C"] "xx_XX"
                   fresh _ _ _) (mkWorld "en_US" []) ∅ (Dict []) _);
    vm_compute; reflexivity.
Defined.

(** ** Scripts without export statements *)

Lemma exec_no_exports avail doc ast selectors export w :
  export_paths ast = [] →
  (∀ l, LocaleStatement l ∈ ast → avail l = true) →
  ∃ selectors',
    exec avail doc ast selectors export w
    = (mkWorld (default (LC_ALL w) (last_locale ast)) (stdout w),
       Ok (selectors', export)).
Proof.
  revert selectors w.
  induction ast as [|stmt ast IH]; intros selectors w Hx Hl; simpl.
  - exists selectors. by destruct w.
  - assert (Hl' : ∀ l, LocaleStatement l ∈ ast → avail l = true).
    { intros l Hin. apply Hl. apply elem_of_cons. by right. }
    destruct stmt as [t|l|n s|n s]; simpl in Hx; try done.
    + destruct (IH selectors w Hx Hl') as [selectors' ->].
      exists selectors'. by destruct (last_locale ast).
    + unfold setlocale. rewrite (Hl l) by (apply elem_of_cons; by left).
      destruct (IH selectors (mkWorld l (stdout w)) Hx Hl') as [selectors' ->].
      exists selectors'. simpl. by destruct (last_locale ast).
    + destruct (IH (<[n := s]> selectors) w Hx Hl') as [selectors' ->].
      exists selectors'. by destruct (last_locale ast).
Qed.

(** X8: selectors are resolved only when exported.  For a script of
    ASCII characters without export statements, the locales of which
    the host has: if
    the document can be read, the run prints the empty mapping and
    returns, whatever the selector declarations are (no declaration is
    evaluated against the document); if it cannot, the run raises the
    error of the XML reader before any statement is executed, prints
    nothing and sets no locale. *)
Theorem declarations_alone_print_empty
    (fromstring : string → result Element) (avail : string → bool)
    (scraper code html : string) (ast : list Statement) (w : World) :
  is_ascii scraper = true →
  Peg.parse scraper Grammar.Script = Ok ast →
  export_paths ast = [] →
  (∀ l, LocaleStatement l ∈ ast → avail l = true) →
  run fromstring avail scraper code html w
  = match fromstring html with
    | Ok _ =>
        (mkWorld (default (LC_ALL w) (last_locale ast)) (stdout w ++ [Dict []]),
         Ok PyNone)
    | Raise e => (w, Raise e)
    end.
Proof.
  intros _ Hp Hx Hl. unfold run. rewrite Hp.
  destruct (fromstring html) as [doc|e]; [|done].
  by destruct (exec_no_exports avail doc ast ∅ (Dict []) w Hx Hl) as [selectors' ->].
Qed.

Lemma declarations_alone_print_empty_witness :
  let script := lines ["# no XPath names"; "selector odd = 1 -> 2"] in
  run Lxml.fromstring installed script EmptyString paragraph_document fresh
    = (mkWorld "C" [Dict []], Ok PyNone)
  ∧ run Lxml.fromstring installed script EmptyString "no document" fresh
    = (fresh, Raise XMLSyntaxError).
Proof.
  intros script.
  assert (Hl : ∀ l,
    LocaleStatement l ∈ [Comment "no XPath names";
                          SelectorStatement "odd" (mkSelector "1" "2")] →
    installed l = true).
  { intros l Hin. repeat (apply elem_of_cons in Hin as [Hin|Hin]; [discriminate|]).
    by apply elem_of_nil in Hin. }
  split.
  - exact (declarations_alone_print_empty Lxml.fromstring installed script
             EmptyString paragraph_document _ fresh eq_refl eq_refl eq_refl Hl).
  - exact (declarations_alone_print_empty Lxml.fromstring installed script
             EmptyString "no document" _ fresh eq_refl eq_refl eq_refl Hl).
Defined.

(** * Further properties of the parser *)

(** ** What the terminals give *)

Lemma word_char_not_space c : Text.is_word_char c = true → Text.is_space c = false.
Proof. destruct c as [[] [] [] [] [] [] [] []]; by vm_compute. Qed.

Lemma span_empty_head f s :
  fst (Text.span f s) = EmptyString → starts (λ c, negb (f c)) s = true.
Proof.
  destruct s as [|c s]; simpl; [done|].
  destruct (f c); [|done]. by destruct (Text.span f s).
Qed.

Lemma skip_starts t : starts not_space (Peg.skip t) = true.
Proof.
  unfold Peg.skip. induction t as [|c t IH]; simpl; [done|].
  destruct (Text.is_space c) eqn:E.
  - by destruct (Text.span Text.is_space t).
  - simpl. unfold not_space. by rewrite E.
Qed.

Lemma starts_app_l f a t : starts f (a +:+ t) = true → starts f a = true.
Proof. by destruct a. Qed.

Lemma lit_Ok s text t u :
  Peg.lit s text = (t, Ok u) → ∃ t0, text = s +:+ t0 ∧ t = Peg.skip t0.
Proof.
  unfold Peg.lit. destruct (Text.strip_prefix s text) as [t0|] eqn:E; [|done].
  intros [= <-]. apply strip_prefix_Some in E. eauto.
Qed.

Lemma word_Ok text t w :
  Peg.word text = (t, Ok w) →
  is_word w = true ∧ ∃ t0, text = w +:+ t0 ∧ t = Peg.skip t0.
Proof.
  unfold Peg.word. intros H.
  pose proof (span_app Text.is_word_char text) as Ht.
  pose proof (span_forallb Text.is_word_char text) as Hf.
  destruct (Text.span Text.is_word_char text) as [m t0]. simpl in *.
  destruct m as [|c m]; [done|]. injection H as <- <-.
  split; [|eauto]. unfold is_word. by rewrite Hf.
Qed.

Lemma restline_Ok text t l :
  Peg.restline text = (t, Ok l) →
  Text.forallb Text.is_dot l = true ∧ ∃ t0, text = l +:+ t0 ∧ t = Peg.skip t0.
Proof.
  unfold Peg.restline. intros H.
  pose proof (span_app Text.is_dot text) as Ht.
  pose proof (span_forallb Text.is_dot text) as Hf.
  destruct (Text.span Text.is_dot text) as [m t0]. simpl in *.
  injection H as <- <-. eauto.
Qed.

Lemma maybe_some_loop_Forall {A} (p : Peg.parser A) (P : A → Prop) fuel :
  (∀ text t a, p text = (t, Ok a) → P a) →
  ∀ text t l, Peg.maybe_some_loop fuel p text = (t, Ok l) → Forall P l.
Proof.
  intros Hp. induction fuel as [|fuel IH]; intros text t l; simpl; [done|].
  destruct (p text) as [t1 [a|]] eqn:E.
  - destruct (Peg.maybe_some_loop fuel p t1) as [t2 [l2|]] eqn:E2; [|done].
    intros [= <- <-]. constructor; eauto.
  - intros [= <- <-]. constructor.
Qed.

(** ** The statements the parser builds *)

Ltac peg_words :=
  repeat match goal with
    | H : Peg.word _ = (_, Ok _) |- _ => apply word_Ok in H as [? _]
    | H : Peg.lit _ _ = (_, Ok _) |- _ => clear H
    | H : Peg.blank _ = (_, Ok _) |- _ => clear H
    end.

Lemma DottedName_words text t n :
  Grammar.DottedName_grammar text = (t, Ok n) →
  n ≠ [] ∧ forallb is_word n = true.
Proof.
  intros H. unfold Grammar.DottedName_grammar, Peg.csl in H. peg_inv H.
  split; [done|].
  match goal with
  | H : Peg.maybe_some _ _ = _ |- _ =>
      apply (maybe_some_loop_Forall _ (λ w, is_word w = true)) in H
  end.
  - peg_words. simpl.
    match goal with H : is_word _ = true |- _ => rewrite H end.
    simpl. apply forallb_forall. intros w Hw.
    match goal with
    | HF : Forall _ _ |- _ =>
        rewrite Forall_forall in HF; apply HF; by apply list_elem_of_In
    end.
  - intros ? ? w Hdot. peg_inv Hdot. by peg_words.
Qed.

Lemma statement_wf text t stmt :
  Grammar.statement text = (t, Ok stmt) → wf_statement stmt = true.
Proof.
  intros H. unfold Grammar.statement in H.
  apply choice_Ok in H as (p & Hp & H).
  repeat (apply elem_of_cons in Hp as [->|Hp]); [| | | |by apply elem_of_nil in Hp].
  - unfold Grammar.Comment_grammar, Peg.attr in H. peg_inv H.
    match goal with
    | H1 : Peg.lit _ _ = _, H2 : Peg.restline _ = _ |- _ =>
        apply lit_Ok in H1 as (t0 & _ & ->);
        apply restline_Ok in H2 as (Hdot & t1 & Ht1 & _)
    end.
    simpl. unfold is_comment_text. rewrite Hdot. simpl.
    apply (starts_app_l _ _ t1). rewrite <- Ht1. apply skip_starts.
  - unfold Grammar.ExportStatement_grammar, Peg.attr in H. peg_inv H.
    match goal with
    | H : Grammar.DottedName_grammar _ = _ |- _ =>
        apply DottedName_words in H as [Hne Hw]
    end.
    peg_words. simpl.
    match goal with H : is_word _ = true |- _ => rewrite H end.
    rewrite andb_true_r. by destruct x1.
  - unfold Grammar.LocaleStatement_grammar, Peg.attr in H. peg_inv H.
    by peg_words.
  - unfold Grammar.SelectorStatement_grammar, Grammar.Selector_grammar,
      Peg.attr in H.
    peg_inv H.
    match goal with
    | H : (_ ≫= _) _ = _ |- _ => peg_inv H
    end.
    peg_words. simpl.
    repeat match goal with H : is_word _ = true |- _ => rewrite H; clear H end.
    done.
Qed.

Lemma parse_Script_wf (text : string) (ast : list Statement) :
  Peg.parse text Grammar.Script = Ok ast →
  Forall (λ stmt, wf_statement stmt = true) ast.
Proof.
  unfold Peg.parse, Grammar.Script, Peg.maybe_some.
  destruct (Peg.maybe_some_loop _ _ _) as [t [l|]] eqn:E; [|done].
  destruct (Text.empty t); [|done]. intros [= <-].
  eapply maybe_some_loop_Forall; [|done].
  intros ? ? ?. apply statement_wf.
Qed.

(** X9: the statements the parser builds from a script of ASCII
    characters have the shape the interpreter counts on: every locale,
    selector name, parent, child, path segment and selector reference
    is a word (one character or more, letters, digits and underscores
    only), every dotted path has a segment, and a comment text has no
    line feed and no white space in front. *)
Theorem parsed_statements_are_well_formed (text : string) (ast : list Statement) :
  is_ascii text = true →
  Peg.parse text Grammar.Script = Ok ast →
  Forall (λ stmt, wf_statement stmt = true) ast.
Proof. intros _. apply parse_Script_wf. Qed.

Lemma parsed_statements_are_well_formed_witness :
  Forall (λ stmt, wf_statement stmt = true)
    [ LocaleStatement "en_US";
      SelectorStatement "paragraph" (mkSelector "p" "a");
      ExportStatement ["foo"; "paragraph"] "paragraph" ].
Proof.
  exact (parsed_statements_are_well_formed three_line_script _ eq_refl
           parse_three_line_script).
Defined.

(** ** The errors of a run *)

Lemma parse_Script_cases text :
  (∃ ast, Peg.parse text Grammar.Script = Ok ast)
  ∨ Peg.parse text Grammar.Script = Raise SyntaxError.
Proof.
  unfold Peg.parse.
  destruct (Script_reads (Peg.skip text)) as (t & ast & -> & _).
  destruct (Text.empty t); eauto.
Qed.

Lemma resolve_error doc selectors name s e :
  name ≠ [] → resolve doc selectors name s = Raise e →
  e = XPathEvalError ∨ e = KeyError s.
Proof.
  intros Hne. unfold resolve.
  destruct (selectors !! s) as [sel|]; simpl; [|intros [= <-]; by right].
  unfold Lxml.xpath.
  destruct (Lxml.is_name (parent sel) && Lxml.is_name (child sel)); simpl;
    [|intros [= <-]; by left].
  unfold last_item. destruct (last name) eqn:E; simpl; [done|].
  by apply last_None in E.
Qed.

Lemma export_statement_error doc selectors export name s e :
  name ≠ [] →
  export_statement doc selectors export name s = Raise e →
  e = TypeError ∨ e = XPathEvalError ∨ e = KeyError s.
Proof.
  intros Hne. rewrite export_statement_eq.
  destruct (resolve doc selectors name s) as [[key items]|e0] eqn:E.
  - intros H. left. by apply insert_at_error in H.
  - rewrite descend_raise. destruct (blocked export (but_last name)).
    + intros [= <-]. by left.
    + intros [= <-]. right. by eapply resolve_error.
Qed.

Lemma exec_error avail doc ast selectors export w w' e :
  Forall (λ stmt, wf_statement stmt = true) ast →
  exec avail doc ast selectors export w = (w', Raise e) → loop_error ast e.
Proof.
  intros Hwf. revert selectors export w.
  induction Hwf as [|stmt ast Hstmt _ IH]; intros selectors export w; simpl;
    [done|].
  assert (Hmono : loop_error ast e → loop_error (stmt :: ast) e).
  { intros [H|[H|[H|(n & s & Hin & H)]]].
    - by left.
    - right. by left.
    - do 2 right. by left.
    - do 3 right. exists n, s. split; [apply elem_of_cons; by right|done]. }
  destruct stmt as [t|l|n s|n s].
  - intros H. by apply Hmono, (IH _ _ _ H).
  - unfold setlocale. destruct (avail l).
    + intros H. by apply Hmono, (IH _ _ _ H).
    + intros [= _ <-]. by left.
  - intros H. by apply Hmono, (IH _ _ _ H).
  - destruct (export_statement doc selectors export n s) as [export'|e0] eqn:E.
    + intros H. by apply Hmono, (IH _ _ _ H).
    + intros [= _ <-].
      assert (Hn : n ≠ []) by (simpl in Hstmt; by destruct n).
      destruct (export_statement_error _ _ _ _ _ _ Hn E) as [-> | [-> | ->]].
      * do 2 right. by left.
      * right. by left.
      * do 3 right. exists n, s. split; [apply elem_of_cons; by left|done].
Qed.

(** X10: the errors of parsing and of the statement loop.  For a script
    of ASCII characters, parsing raises nothing but a syntax error (the
    parser never loops); and the loop over the statements parsed, from
    whatever selectors, tree and document, raises nothing but an
    unsupported locale, an invalid XPath expression, the [TypeError] of
    assigning into a stored list, or the [KeyError] of a selector name
    that an export statement of the script refers to.  In particular
    [stmt.name[-1]] never fails.  Reading the document before the loop
    and printing the tree after it are not covered. *)
Theorem loop_errors (avail : string → bool) (scraper : string) :
  is_ascii scraper = true →
  (∀ e, Peg.parse scraper Grammar.Script = Raise e → e = SyntaxError)
  ∧ (∀ ast doc selectors export w w' e,
       Peg.parse scraper Grammar.Script = Ok ast →
       exec avail doc ast selectors export w = (w', Raise e) →
       loop_error ast e).
Proof.
  intros _. split.
  - intros e. destruct (parse_Script_cases scraper) as [[ast ->]| ->]; [done|].
    by intros [= <-].
  - intros ast doc selectors export w w' e Hp. apply exec_error.
    by eapply parse_Script_wf.
Qed.

Lemma loop_errors_witness :
  let script := lines ["locale en_US"; "export out.v = missing"] in
  let ast := [LocaleStatement "en_US"; ExportStatement ["out"; "v"] "missing"] in
  Peg.parse script Grammar.Script = Ok ast
  ∧ exec installed paragraph_tree ast ∅ (Dict []) fresh
    = (mkWorld "en_US" [], Raise (KeyError "missing"))
  ∧ loop_error ast (KeyError "missing").
Proof.
  intros script ast.
  assert (Hp : Peg.parse script Grammar.Script = Ok ast) by reflexivity.
  assert (He : exec installed paragraph_tree ast ∅ (Dict []) fresh
               = (mkWorld "en_US" [], Raise (KeyError "missing")))
    by reflexivity.
  split; [exact Hp|]. split; [exact He|].
  exact (proj2 (loop_errors installed script eq_refl)
           ast paragraph_tree ∅ (Dict []) fresh _ _ Hp He).
Defined.

(** ** Scripts of white space *)

Lemma skip_gap g t : is_blank g = true → Peg.skip (g +:+ t) = Peg.skip t.
Proof.
  unfold is_blank, Peg.skip. induction g as [|c g IH]; simpl; [done|].
  intros [Hc Hg]%andb_prop. rewrite Hc.
  specialize (IH Hg). by destruct (Text.span Text.is_space (g +:+ t)).
Qed.

Lemma skip_id t : starts not_space t = true → Peg.skip t = t.
Proof.
  unfold Peg.skip, not_space. destruct t as [|c t]; simpl; [done|].
  by intros ->%negb_true_iff.
Qed.

Lemma skip_blank text : is_blank text = true → Peg.skip text = EmptyString.
Proof.
  intros H. rewrite <- (string_app_nil_r text). by rewrite skip_gap.
Qed.

(** X11: a script that is empty or holds white space only is the empty
    statement sequence.  Running it sets no locale; if the document can
    be read the run prints the empty mapping and returns, and if it
    cannot the run raises the error of the XML reader and prints
    nothing. *)
Theorem blank_script_prints_empty
    (fromstring : string → result Element) (avail : string → bool)
    (scraper code html : string) (w : World) :
  is_blank scraper = true →
  Peg.parse scraper Grammar.Script = Ok []
  ∧ run fromstring avail scraper code html w
    = match fromstring html with
      | Ok _ => (mkWorld (LC_ALL w) (stdout w ++ [Dict []]), Ok PyNone)
      | Raise e => (w, Raise e)
      end.
Proof.
  intros Hb.
  assert (Hp : Peg.parse scraper Grammar.Script = Ok []).
  { unfold Peg.parse. by rewrite (skip_blank _ Hb). }
  split; [done|]. unfold run. rewrite Hp.
  by destruct (fromstring html).
Qed.

Lemma blank_script_prints_empty_witness :
  let script := lines [EmptyString; "  "; EmptyString] in
  run Lxml.fromstring installed script "export a = b" paragraph_document fresh
    = (mkWorld "C" [Dict []], Ok PyNone)
  ∧ run Lxml.fromstring installed script "export a = b" EmptyString fresh
    = (fresh, Raise XMLSyntaxError).
Proof.
  intros script. split.
  - exact (proj2 (blank_script_prints_empty Lxml.fromstring installed script
                    "export a = b" paragraph_document fresh eq_refl)).
  - exact (proj2 (blank_script_prints_empty Lxml.fromstring installed script
                    "export a = b" EmptyString fresh eq_refl)).
Defined.

(** ** Writing a script down and reading it back *)

Lemma strip_prefix_app s t : Text.strip_prefix s (s +:+ t) = Some t.
Proof.
  induction s as [|c s IH]; simpl; [by destruct t|].
  by rewrite Ascii.eqb_refl.
Qed.

Lemma span_app_stop f w t :
  Text.forallb f w = true → starts (λ c, negb (f c)) t = true →
  Text.span f (w +:+ t) = (w, t).
Proof.
  induction w as [|c w IH]; simpl.
  - intros _. destruct t as [|c t]; simpl; [done|]. by intros ->%negb_true_iff.
  - intros [Hc Hw]%andb_prop Ht. rewrite Hc. by rewrite (IH Hw Ht).
Qed.

Lemma is_word_starts w t : is_word w = true → starts not_space (w +:+ t) = true.
Proof.
  unfold is_word. destruct w as [|c w]; simpl; [done|].
  intros [Hc _]%andb_prop. unfold not_space.
  by rewrite (word_char_not_space _ Hc).
Qed.

Lemma gap_starts g t :
  is_blank g = true → starts not_word_char t = true →
  starts not_word_char (g +:+ t) = true.
Proof.
  unfold is_blank. destruct g as [|c g]; simpl; [done|].
  intros [Hc _]%andb_prop _. unfold not_word_char.
  destruct (Text.is_word_char c) eqn:E; [|done].
  apply word_char_not_space in E. congruence.
Qed.

Lemma lit_gap s g t :
  is_blank g = true → starts not_space t = true →
  Peg.lit s (s +:+ g +:+ t) = (t, Ok tt).
Proof.
  intros Hg Ht. unfold Peg.lit.
  by rewrite strip_prefix_app, skip_gap, skip_id.
Qed.

Lemma word_gap w g t :
  is_word w = true → is_blank g = true → starts not_space t = true →
  starts not_word_char (g +:+ t) = true →
  Peg.word (w +:+ g +:+ t) = (t, Ok w).
Proof.
  intros Hw Hg Ht Hstop. unfold Peg.word, is_word in *.
  apply andb_prop in Hw as [Hne Hw].
  rewrite (span_app_stop _ _ _ Hw Hstop).
  destruct w as [|c w]; [done|]. by rewrite skip_gap, skip_id.
Qed.

Lemma restline_line l t :
  Text.forallb Text.is_dot l = true → starts not_space t = true →
  Peg.restline (l +:+ LF +:+ t) = (t, Ok l).
Proof.
  intros Hl Ht. unfold Peg.restline.
  rewrite (span_app_stop _ _ _ Hl) by done.
  by rewrite (skip_gap LF), skip_id.
Qed.

Lemma seq_intro {A B} (p : Peg.parser A) (k : A → Peg.parser B) text t1 a t b' :
  p text = (t1, Ok a) → k a t1 = (t, Ok b') → (p ≫= k) text = (t, Ok b').
Proof.
  unfold mbind, Peg.parser_bind, Peg.seq. by intros -> ->.
Qed.

Lemma choice_skip {A} (p : Peg.parser A) ps text t e :
  p text = (t, Raise e) → Peg.choice (p :: ps) text = Peg.choice ps text.
Proof. simpl. by intros ->. Qed.

Lemma choice_take {A} (p : Peg.parser A) ps text t a :
  p text = (t, Ok a) → Peg.choice (p :: ps) text = (t, Ok a).
Proof. simpl. by intros ->. Qed.

Lemma word_app w t :
  is_word w = true → starts not_word_char t = true →
  Peg.word (w +:+ t) = (Peg.skip t, Ok w).
Proof.
  intros Hw Hstop. unfold Peg.word, is_word in *.
  apply andb_prop in Hw as [Hne Hw].
  rewrite (span_app_stop _ _ _ Hw Hstop).
  by destruct w.
Qed.

Lemma dots_cons y ys : dots (y :: ys) = "." +:+ y +:+ dots ys.
Proof. unfold dots. simpl. by rewrite ?string_app_assoc. Qed.

Lemma dots_length xs : length xs ≤ String.length (dots xs).
Proof.
  induction xs as [|y ys IH]; [done|].
  rewrite dots_cons, !string_length_app. simpl. lia.
Qed.

Lemma dots_starts xs g t :
  is_blank g = true → starts not_word_char t = true →
  starts not_word_char (dots xs +:+ g +:+ t) = true.
Proof.
  intros Hg Ht. destruct xs as [|y ys].
  - unfold dots. simpl. by apply gap_starts.
  - by rewrite dots_cons.
Qed.

Lemma dots_skip xs g t :
  is_blank g = true → starts not_space t = true →
  Peg.skip (dots xs +:+ g +:+ t)
  = match xs with [] => t | _ => dots xs +:+ g +:+ t end.
Proof.
  intros Hg Ht. destruct xs as [|y ys].
  - change (dots []) with EmptyString. simpl. by rewrite skip_gap, skip_id.
  - rewrite dots_cons. by apply skip_id.
Qed.

Lemma dot_loop g t xs :
  is_blank g = true → starts not_space t = true →
  starts not_word_char t = true → Text.strip_prefix "." t = None →
  forallb is_word xs = true →
  ∀ fuel, length xs < fuel →
    Peg.maybe_some_loop fuel (Peg.lit "." ;; Peg.blank ;; Peg.word)
      (Peg.skip (dots xs +:+ g +:+ t))
    = (t, Ok xs).
Proof.
  intros Hg Ht Hw Hdot. induction xs as [|y ys IH]; intros Hxs fuel Hfuel.
  - destruct fuel as [|fuel]; [simpl in Hfuel; lia|].
    rewrite dots_skip by done. simpl.
    unfold mbind, Peg.parser_bind, Peg.seq, Peg.lit. by rewrite Hdot.
  - destruct fuel as [|fuel]; [simpl in Hfuel; lia|].
    simpl in Hxs. apply andb_prop in Hxs as [Hy Hys].
    rewrite dots_skip by done. rewrite dots_cons, !string_app_assoc.
    cbn [Peg.maybe_some_loop].
    rewrite (seq_intro (Peg.lit ".") _ _ (y +:+ dots ys +:+ g +:+ t) tt
               (Peg.skip (dots ys +:+ g +:+ t)) y).
    + rewrite IH; [done|done|]. simpl in Hfuel. lia.
    + apply (lit_gap "." EmptyString); [done|]. by apply is_word_starts.
    + eapply seq_intro; [reflexivity|].
      apply word_app; [done|]. by apply dots_starts.
Qed.

Lemma DottedName_spell g t n :
  is_blank g = true → starts not_space t = true →
  starts not_word_char t = true → Text.strip_prefix "." t = None →
  n ≠ [] → forallb is_word n = true →
  Grammar.DottedName_grammar (Text.join "." n +:+ g +:+ t) = (t, Ok n).
Proof.
  intros Hg Ht Hw Hdot Hne Hn. destruct n as [|x xs]; [done|].
  simpl in Hn. apply andb_prop in Hn as [Hx Hxs].
  rewrite join_dots. fold (dots xs). rewrite string_app_assoc.
  unfold Grammar.DottedName_grammar, Peg.csl.
  eapply seq_intro; [apply word_app; [done|by apply dots_starts]|].
  eapply seq_intro; [|reflexivity].
  unfold Peg.maybe_some. apply dot_loop; try done.
  pose proof (dots_length xs). rewrite dots_skip by done.
  destruct xs; [simpl; lia|]. rewrite string_length_app. simpl in *. lia.
Qed.

Lemma Selector_spell g p c rest :
  is_blank g = true → is_word p = true → is_word c = true →
  starts not_space rest = true →
  Grammar.Selector_grammar (p +:+ g +:+ "->" +:+ g +:+ c +:+ LF +:+ rest)
  = (rest, Ok (mkSelector p c)).
Proof.
  intros Hg Hp Hc Hrest. unfold Grammar.Selector_grammar, Peg.attr.
  eapply seq_intro; [apply word_gap; [done|done|done|by apply gap_starts]|].
  eapply seq_intro; [apply lit_gap; [done|by apply is_word_starts]|].
  eapply seq_intro; [apply (word_gap c LF rest); done|].
  reflexivity.
Qed.

Lemma Comment_spell g t rest :
  is_blank g = true → is_comment_text t = true → Text.empty t = false →
  starts not_space rest = true →
  Grammar.Comment_grammar (spell g (Comment t) +:+ LF +:+ rest)
  = (rest, Ok (Comment t)).
Proof.
  intros Hg [Hdot Hst]%andb_prop Hne Hrest. cbn [spell].
  rewrite !string_app_assoc. unfold Grammar.Comment_grammar, Peg.attr.
  eapply seq_intro.
  { apply lit_gap; [done|]. destruct t; [done|]. exact Hst. }
  eapply seq_intro; [by apply restline_line|].
  eapply seq_intro; reflexivity.
Qed.

Lemma LocaleStatement_spell g l rest :
  is_blank g = true → is_word l = true → starts not_space rest = true →
  Grammar.LocaleStatement_grammar (spell g (LocaleStatement l) +:+ LF +:+ rest)
  = (rest, Ok (LocaleStatement l)).
Proof.
  intros Hg Hl Hrest. cbn [spell].
  rewrite !string_app_assoc. unfold Grammar.LocaleStatement_grammar, Peg.attr.
  eapply seq_intro; [apply lit_gap; [done|by apply is_word_starts]|].
  eapply seq_intro; [apply (word_gap l LF rest); done|].
  reflexivity.
Qed.

Lemma SelectorStatement_spell g n s rest :
  is_blank g = true → is_word n = true →
  is_word (parent s) = true → is_word (child s) = true →
  starts not_space rest = true →
  Grammar.SelectorStatement_grammar
    (spell g (SelectorStatement n s) +:+ LF +:+ rest)
  = (rest, Ok (SelectorStatement n s)).
Proof.
  intros Hg Hn Hp Hc Hrest. cbn [spell].
  rewrite !string_app_assoc. unfold Grammar.SelectorStatement_grammar, Peg.attr.
  eapply seq_intro; [apply lit_gap; [done|by apply is_word_starts]|].
  eapply seq_intro; [apply word_gap; [done|done|done|by apply gap_starts]|].
  eapply seq_intro; [apply lit_gap; [done|by apply is_word_starts]|].
  eapply seq_intro; [by apply Selector_spell|].
  by destruct s.
Qed.

Lemma ExportStatement_spell g n s rest :
  is_blank g = true → n ≠ [] → forallb is_word n = true → is_word s = true →
  starts not_space rest = true →
  Grammar.ExportStatement_grammar
    (spell g (ExportStatement n s) +:+ LF +:+ rest)
  = (rest, Ok (ExportStatement n s)).
Proof.
  intros Hg Hne Hn Hs Hrest. cbn [spell].
  rewrite !string_app_assoc. unfold Grammar.ExportStatement_grammar, Peg.attr.
  eapply seq_intro.
  { apply lit_gap; [done|]. destruct n as [|x xs]; [done|].
    simpl in Hn. apply andb_prop in Hn as [Hx _].
    rewrite join_dots, string_app_assoc. by apply is_word_starts. }
  eapply seq_intro; [by apply DottedName_spell|].
  eapply seq_intro; [apply lit_gap; [done|by apply is_word_starts]|].
  eapply seq_intro; [apply (word_gap s LF rest); done|].
  reflexivity.
Qed.

Lemma statement_spell g stmt rest :
  is_blank g = true → printable stmt = true → starts not_space rest = true →
  Grammar.statement (spell g stmt +:+ LF +:+ rest) = (rest, Ok stmt).
Proof.
  intros Hg [Hwf Hp]%andb_prop Hrest. unfold Grammar.statement.
  destruct stmt as [t|l|n s|n s]; simpl in Hwf, Hp.
  - erewrite choice_take; [done|].
    apply Comment_spell; try done. by apply negb_true_iff.
  - erewrite choice_skip by (cbn [spell]; rewrite !string_app_assoc; reflexivity).
    erewrite choice_skip by (cbn [spell]; rewrite !string_app_assoc; reflexivity).
    erewrite choice_take; [done|]. by apply LocaleStatement_spell.
  - erewrite choice_skip by (cbn [spell]; rewrite !string_app_assoc; reflexivity).
    erewrite choice_skip by (cbn [spell]; rewrite !string_app_assoc; reflexivity).
    erewrite choice_skip by (cbn [spell]; rewrite !string_app_assoc; reflexivity).
    erewrite choice_take; [done|].
    apply andb_prop in Hwf as [[Hn Hpa]%andb_prop Hc].
    by apply SelectorStatement_spell.
  - erewrite choice_skip by (cbn [spell]; rewrite !string_app_assoc; reflexivity).
    erewrite choice_take; [done|].
    apply andb_prop in Hwf as [Hn Hs].
    apply ExportStatement_spell; try done; by destruct n.
Qed.

Lemma unparse_starts g ast : starts not_space (unparse g ast) = true.
Proof. destruct ast as [|[t|l|n s|n s] ast]; reflexivity. Qed.

Lemma unparse_loop g ast :
  is_blank g = true → Forall (λ stmt, printable stmt = true) ast →
  ∀ fuel, String.length (unparse g ast) < fuel →
    Peg.maybe_some_loop fuel Grammar.statement (unparse g ast)
    = (EmptyString, Ok ast).
Proof.
  intros Hg Hast. induction Hast as [|stmt ast Hstmt _ IH]; intros fuel Hfuel.
  - destruct fuel as [|fuel]; [simpl in Hfuel; lia|]. reflexivity.
  - destruct fuel as [|fuel]; [lia|].
    cbn [unparse Peg.maybe_some_loop] in *.
    rewrite statement_spell by (try done; apply unparse_starts).
    rewrite IH; [done|].
    rewrite !string_length_app in Hfuel. simpl in Hfuel. lia.
Qed.

(** X12: writing and reading back.  A sequence of well-formed
    statements, written in ASCII one a line with one gap [g] of white
    space (of any length, or none) between the tokens of the statements,
    parses to exactly that sequence: keywords need no space after them,
    and the text of a comment is kept as it is. *)
Theorem parse_unparse (g : string) (ast : list Statement) :
  is_blank g = true →
  Forall (λ stmt, printable stmt = true) ast →
  is_ascii (unparse g ast) = true →
  Peg.parse (unparse g ast) Grammar.Script = Ok ast.
Proof.
  intros Hg Hast _. unfold Peg.parse, Grammar.Script, Peg.maybe_some.
  rewrite (skip_id _ (unparse_starts g ast)).
  by rewrite (unparse_loop g ast Hg Hast) by lia.
Qed.

Lemma parse_unparse_witness :
  let ast := [ Comment "The export command defines data elements";
               LocaleStatement "en_US";
               SelectorStatement "paragraph" (mkSelector "p" "a");
               ExportStatement ["foo"; "paragraph"] "paragraph" ] in
  Peg.parse (unparse " " ast) Grammar.Script = Ok ast
  ∧ Peg.parse
      (lines [ "#The export command defines data elements";
               "localeen_US"; "selectorparagraph=p->a";
               "exportfoo.paragraph=paragraph"; EmptyString ])
      Grammar.Script = Ok ast.
Proof.
  intros ast. split.
  - apply (parse_unparse " " ast); [reflexivity| |reflexivity].
    repeat constructor.
  - apply (parse_unparse EmptyString ast); [reflexivity| |reflexivity].
    repeat constructor.
Defined.

(** * Further properties of the statement classes *)

(** ** When an export succeeds *)

Lemma last_item_total {A} (l : list A) : l ≠ [] → ∃ x, last_item l = Ok x.
Proof.
  unfold last_item. destruct (last l) eqn:E; [eauto|].
  by apply last_None in E.
Qed.

(** X13: an export statement succeeds as soon as its selector is
    declared, the two words of the selector are XPath names and no list
    is stored on the way to its path; it then stores the serialised
    matches at its path, an empty list when nothing matches. *)
Theorem export_succeeds
    (doc : Element) (selectors : gmap string Selector) (export : value)
    (name : list string) (s : string) (sel : Selector) :
  selectors !! s = Some sel →
  Lxml.is_name (parent sel) = true →
  Lxml.is_name (child sel) = true →
  name ≠ [] →
  (∀ p, proper_prefix p name → is_leaf (at_path export p) = false) →
  ∃ export',
    export_statement doc selectors export name s = Ok export'
    ∧ at_path export' name
      = Some (Leaf (map Lxml.tostring (Lxml.select (parent sel) (child sel) doc))).
Proof.
  intros Hs Hp Hc Hne Hfree.
  destruct (last_item_total name Hne) as [key Hkey].
  assert (Hr : resolve doc selectors name s
               = Ok (key, map Lxml.tostring (Lxml.select (parent sel) (child sel) doc))).
  { unfold resolve, Lxml.xpath. rewrite Hs. simpl. rewrite Hp, Hc. simpl.
    by rewrite Hkey. }
  pose proof (last_item_Ok _ _ Hkey) as Hn.
  destruct (insert_at_total export (but_last name) key
              (map Lxml.tostring (Lxml.select (parent sel) (child sel) doc)))
    as [export' Hi].
  { intros p Hpre. apply Hfree. by apply prefix_but_last_proper. }
  exists export'. rewrite export_statement_eq, Hr. split; [done|].
  rewrite Hn. by eapply insert_at_stored.
Qed.

Lemma export_succeeds_witness :
  ∃ export',
    export_statement paragraph_tree (<["none" := mkSelector "li" "a"]> ∅)
      (Dict []) ["out"; "items"] "none" = Ok export'
    ∧ at_path export' ["out"; "items"] = Some (Leaf []).
Proof.
  apply (export_succeeds paragraph_tree (<["none" := mkSelector "li" "a"]> ∅)
           (Dict []) ["out"; "items"] "none" (mkSelector "li" "a"));
    try reflexivity; try discriminate.
  intros p _. by destruct p.
Defined.

(** ** What the display methods tell *)

Lemma string_app_inv_head (a x y : string) : a +:+ x = a +:+ y → x = y.
Proof. induction a as [|c a IH]; simpl; [done|]. intros [= H]. by apply IH. Qed.

Lemma word_prefix_inj w1 w2 t1 t2 :
  is_word w1 = true → is_word w2 = true →
  starts not_word_char t1 = true → starts not_word_char t2 = true →
  w1 +:+ t1 = w2 +:+ t2 → w1 = w2 ∧ t1 = t2.
Proof.
  unfold is_word. intros [_ H1]%andb_prop [_ H2]%andb_prop Ht1 Ht2 Heq.
  pose proof (span_app_stop Text.is_word_char w1 t1 H1 Ht1) as E1.
  pose proof (span_app_stop Text.is_word_char w2 t2 H2 Ht2) as E2.
  rewrite Heq, E2 in E1. by injection E1 as <- <-.
Qed.

Lemma Selector_str_inj s1 s2 t1 t2 :
  is_word (parent s1) = true → is_word (child s1) = true →
  is_word (parent s2) = true → is_word (child s2) = true →
  Selector_str s1 +:+ t1 = Selector_str s2 +:+ t2 → s1 = s2.
Proof.
  intros Hp1 Hc1 Hp2 Hc2. unfold Selector_str.
  rewrite !string_app_assoc. intros H.
  apply string_app_inv_head in H.
  apply word_prefix_inj in H as [Hp H]; [|done..].
  apply (string_app_inv_head " child=") in H.
  apply word_prefix_inj in H as [Hc _]; [|done..].
  destruct s1, s2. simpl in *. by subst.
Qed.

(** X14: what [print] would write of a locale or selector statement the
    parser built tells which statement it is: two such statements with
    the same text are the same statement. *)
Theorem display_identifies_statement (stmt1 stmt2 : Statement) (shown : string) :
  wf_statement stmt1 = true →
  wf_statement stmt2 = true →
  display stmt1 = Some shown →
  display stmt2 = Some shown →
  stmt1 = stmt2.
Proof.
  intros Hwf1 Hwf2 H1 H2.
  destruct stmt1 as [t1|l1|n1 s1|n1 s1], stmt2 as [t2|l2|n2 s2|n2 s2];
    simpl in *; try done; injection H1 as <-; injection H2 as H.
  - apply word_prefix_inj in H as [-> _]; done.
  - by vm_compute in H.
  - by vm_compute in H.
  - apply andb_prop in Hwf1 as [[Hn1 Hp1]%andb_prop Hc1].
    apply andb_prop in Hwf2 as [[Hn2 Hp2]%andb_prop Hc2].
    apply word_prefix_inj in H as [-> H]; [|done..].
    apply (string_app_inv_head " = ") in H.
    by rewrite (Selector_str_inj _ _ _ _ Hp2 Hc2 Hp1 Hc1 H).
Qed.

Lemma display_identifies_statement_witness :
  display (SelectorStatement "paragraph" (mkSelector "p" "a"))
    = Some "SelectorStatement[paragraph = Selector[parent=p child=a]]"
  ∧ SelectorStatement "paragraph" (mkSelector "p" "a")
    = SelectorStatement "paragraph" (mkSelector "p" "a").
Proof.
  split; [reflexivity|].
  exact (display_identifies_statement
           (SelectorStatement "paragraph" (mkSelector "p" "a"))
           (SelectorStatement "paragraph" (mkSelector "p" "a"))
           "SelectorStatement[paragraph = Selector[parent=p child=a]]"
           eq_refl eq_refl eq_refl eq_refl).
Defined.

(** * The state a run starts in *)

Lemma exec_independent avail doc ast selectors export w1 w2 :
  snd (exec avail doc ast selectors export w1)
  = snd (exec avail doc ast selectors export w2).
Proof.
  revert selectors export w1 w2.
  induction ast as [|stmt ast IH]; intros selectors export w1 w2; simpl; [done|].
  destruct stmt as [t|l|n s|n s]; try apply IH.
  - unfold setlocale. destruct (avail l); [apply IH|done].
  - destruct (export_statement doc selectors export n s); [apply IH|done].
Qed.

(** X15: what a run returns or raises, and what it prints, do not depend
    on the state of the process it starts in: the locale a former run
    left behind changes neither the tree nor the error. *)
Theorem outcome_independent_of_state
    (fromstring : string → result Element) (avail : string → bool)
    (scraper code html : string) (w1 w2 : World) :
  snd (run fromstring avail scraper code html w1)
  = snd (run fromstring avail scraper code html w2)
  ∧ ∃ out,
      stdout (fst (run fromstring avail scraper code html w1)) = stdout w1 ++ out
      ∧ stdout (fst (run fromstring avail scraper code html w2)) = stdout w2 ++ out.
Proof.
  unfold run.
  destruct (Peg.parse scraper Grammar.Script) as [ast|];
    [|split; [done|exists []; by rewrite !app_nil_r]].
  destruct (fromstring html) as [doc|];
    [|split; [done|exists []; by rewrite !app_nil_r]].
  pose proof (exec_independent avail doc ast ∅ (Dict []) w1 w2) as Hsnd.
  destruct (exec avail doc ast ∅ (Dict []) w1) as [w1' r1] eqn:E1.
  destruct (exec avail doc ast ∅ (Dict []) w2) as [w2' r2] eqn:E2.
  simpl in Hsnd. subst r2.
  apply exec_stdout in E1, E2.
  destruct r1 as [[selectors export]|e]; simpl.
  - split; [done|]. exists [export]. by rewrite E1, E2.
  - split; [done|]. exists []. by rewrite !app_nil_r.
Qed.
